(* ===== verification/_CoqProject ===== *)
-Q . S2P
Prelude.v
Hasher.v
RelativePath.v
Sqlite.v
Consts.v
Faults.v
Index.v
Laws.v
Trace.v
Interface.v
Instances.v
