(* ===== verification/Prelude.v ===== *)
(** * A verified model of hack's SQLite naming table for global constants

    This development models [src/hphp/hack/src/name_index/sqlite/consts.rs],
    the SQLite-backed half of hack's naming index for one symbol kind
    (global constants).  That file has three operations and one test:
    - [create_table] runs [CREATE TABLE IF NOT EXISTS NAMING_CONSTS]
      with [HASH INTEGER PRIMARY KEY NOT NULL] and
      [FILE_INFO_ID INTEGER NOT NULL];
    - [insert] prepares one [INSERT INTO NAMING_CONSTS] statement and runs it
      once per name of the iterator.  The key is
      [convert::name_to_hash(DepType::GConst, name)].  Any [?] returns early;
    - [get_path] hashes the name the same way and runs one [SELECT] that
      [LEFT JOIN]s [NAMING_FILE_INFO] on [FILE_INFO_ID].  It converts the two
      columns into a [RelativePath] and turns "no row" into [None] with
      [.optional()];
    - [test_add_const] opens an in-memory database, then creates the table
      and inserts one name.

    ** Parts and files

    - [Prelude] (this file).  It holds Rust's [Result] as [Result] with
      [Ok]/[Err], the state-and-error monad [st] with the notations of
      [naming_scope], and [for_each], the model of a [for] loop whose body
      uses [?].  It also holds the signed and unsigned 64-bit ranges, the
      wrap-around [as_i64] of Rust's [u64 as i64], the hint database
      [naming] and the tactic [st_simpl].
    - [Hasher]: [DepType] (the symbol kinds) and the class [NameHasher].
      The class is the contract of [convert::name_to_hash]: a total
      function into the signed 64-bit range.  Its algorithm is in neither
      src/ nor the spec, so every theorem is stated for an arbitrary
      instance.  [fnv_hasher], a sample FNV-1a instance, only evaluates
      witnesses on concrete names.
    - [RelativePath]: the [Prefix] enumeration, [RelativePath::make], and
      the prefix's integer discriminant.  These are not under
      src/; they are modelled from the spec (section 3).
    - [Sqlite]: the database state [Db] as two optional tables, each [None]
      while the table does not exist.  [NAMING_CONSTS] is a [gmap Z Z] from
      HASH to FILE_INFO_ID.  The external [NAMING_FILE_INFO] is a
      [gmap Z file_info_row] of dynamically typed SQL values.  The file also
      holds rusqlite's errors and the steps that are rusqlite's, not
      consts.rs's:
      - [prepare] (a missing table fails at prepare time);
      - [query_row] and [optional];
      - [row_get], with the [FromSql] conversions [SqlitePrefix] and
        [SqlitePathBuf].
    - [Consts]: the three operations and the test, each a definition in the
      monad, written statement by statement as consts.rs is.  The statement
      semantics are [exec_create_naming_consts], [exec_insert_naming_consts]
      and [select_naming_consts]; [get_path_row] is the row closure.
    - [Faults]: [insert] as a relation [insert_run] in which [prepare] and
      every [INSERT] may also fail with a storage fault (spec section 7).
    - [Index]: an abstract specification.  The index is a map from names to
      file ids, and a lookup resolves through the file table.  The
      refinement theorems say the hash-keyed table implements it while no
      two names in play collide.
    - [Laws]: properties that compare or bound the operations.
    - [Trace]: whole runs of one connection.  [ustep U] interleaves
      [create_table], faulty [insert] runs of names of a collision-free set
      [U], [get_path] and changes of the file store.
    - [Interface]: the operations spec section 6 exposes to callers, as the
      class [NameIndex], with the laws callers rely on as [NameIndexLaws]
      (operations and laws in two classes, as coqutil's [map.map] and
      [map.ok]).  Its client lemmas, such as the spec's second scenario,
      use the laws only.
    - [Instances]: two implementations of the interface.  [consts_laws]
      proves the laws of consts.rs over any [NameHasher], where two names
      share a slot when they share a key.  [abs_laws] proves them of the
      abstract index, where a slot is a name.

    ** What the theorems show (claims C1 to C22)

    Every claim holds for every [NameHasher].
    - [Consts], one claim per branch of each function:
      - [insert] succeeds on fresh distinct keys and writes exactly their
        rows (C1).  It stops at the first taken key with the rows before it
        kept (C2), and fails without its table even for no names (C3).
      - [get_path] returns [None] for an unknown key (C4) and the path for
        a valid record (C5).  A dangling file id is an error, not [None]
        (C6).  Without the file table it fails (C13).  Its only errors are
        a missing table and a column that does not convert (C19).
      - [create_table] is idempotent and keeps rows (C7).
      - A round trip runs from [insert] to [get_path] (C8).  On a
        collision the first insert wins, and the lookup cannot tell the
        names apart (C9).
    - [Faults]: a faulty [insert] run leaves the rows of a prefix of the
      names (C10).
    - [Index]: [insert] (C11) and [get_path] (C12) refine the abstract
      name index while the names in play do not collide.
    - [Laws]:
      - [insert] over [xs ++ ys] is [insert xs] then [insert ys] (C14).
      - [insert] only adds rows: at most one per name, and exactly one per
        name on success (C15).
      - With well-typed file records and no dangling file id, [get_path]
        never fails, and it returns [None] exactly for names without a row
        (C16).  [insert] with a recorded file id keeps the table free of
        dangling ids (C17).
      - Two [insert]s of fresh names with distinct keys commute (C21).
      - After [create_table] on a database without the table, every name
        is unknown, provided the file store's table exists (C22).
    - [Trace]: every database reachable by collision-free runs, with
      storage faults anywhere, implements an abstract index, and its
      lookups return that index's answers (C18).
    - [Instances]: the spec's second scenario holds of consts.rs on names
      with distinct keys (C20).  It is proved once in [Interface] from the
      laws and instantiated at [consts_laws].

    ** Bounds and fuel

    Every loop is structural on the list of names, the model of the finite
    iterator, so no fuel is used.  Hashes and file ids are [Z].  The class
    [NameHasher] keeps every key in [[-2^63, 2^63)].  [Trace] admits only
    inserts whose file id is in that range: the code's [file_info_id] is
    an [i64].

    ** Not modelled

    [Consts.get_path] uses [prepare] where line 61 calls [prepare_cached].
    rusqlite's statement cache is a performance device (spec section 5),
    and SQLite checks a reused statement against the current schema, so it
    is not modelled.  [insert] (line 36) uses the uncached [prepare], as
    modelled.  A storage fault of [create_table] (line 19) is not
    modelled; one leaves the database as it was.  Connection opening and
    closing, and SQLite's locking and isolation, are not modelled.  The one
    connection is the explicit state.  Other symbol kinds are not modelled
    either: they are replicas of this file (spec section 1).

    Three collaborators stay partly modelled, because their code is not
    under src/:
    - the identity hasher, by its contract only;
    - the file-location store, by its table's rows and the two conversions
      [get_path] applies;
    - rusqlite, by [prepare], [query_row], [optional] and [row_get].
    The unit test [test_add_const] is translated, but it only unwraps the
    results of [create_table] and [insert], so no theorem is stated about
    it beyond what C1 says of [insert]. *)

From stdpp Require Export base gmap strings list.
From Stdlib Require Export ZArith Lia.

Declare Scope naming_scope.
Delimit Scope naming_scope with naming.

Create HintDb naming discriminated.
Create Rewrite HintDb naming.

(** ** Rust's [Result] *)

Inductive Result (A E : Type) : Type :=
| Ok (a : A)
| Err (e : E).
Arguments Ok {A E} a.
Arguments Err {A E} e.

(** ** A state-and-error monad

    [st S E A] threads one mutable state [S] (the connection) and stops at
    the first error, the way [?] returns early (notations [let? x := m in k]
    and [m ;? k]), keeping the state changed so
    far: statements already executed are not undone. *)

Definition st (S E A : Type) : Type := S -> Result A E * S.

Definition st_ret {S E A} (a : A) : st S E A := fun s => (Ok a, s).

Definition st_err {S E A} (e : E) : st S E A := fun s => (Err e, s).

Definition st_bind {S E A B} (m : st S E A) (k : A -> st S E B) : st S E B :=
  fun s =>
    match m s with
    | (Ok a, s') => k a s'
    | (Err e, s') => (Err e, s')
    end.

Notation "'let?' x := m 'in' k" := (st_bind m (fun x => k))
  (at level 100, x name, m at level 100, k at level 200) : naming_scope.
Notation "m ;? k" := (st_bind m (fun _ => k))
  (at level 100, k at level 200, right associativity) : naming_scope.

Local Open Scope naming_scope.

(** [for x in xs { body(x)?; }] *)
Fixpoint for_each {S E X} (body : X -> st S E unit) (xs : list X) : st S E unit :=
  match xs with
  | [] => st_ret tt
  | x :: xs' => body x ;? for_each body xs'
  end.

Lemma st_bind_ret_l {S E A B} (a : A) (k : A -> st S E B) s :
  st_bind (st_ret a) k s = k a s.
Proof. reflexivity. Qed.

Lemma st_bind_err {S E A B} (e : E) (k : A -> st S E B) s :
  st_bind (st_err e) k s = (Err e, s).
Proof. reflexivity. Qed.

Lemma st_bind_assoc {S E A B C} (m : st S E A) (k : A -> st S E B)
  (k' : B -> st S E C) s :
  st_bind (st_bind m k) k' s = st_bind m (fun a => st_bind (k a) k') s.
Proof. unfold st_bind. destruct (m s) as [[a|e] s']; reflexivity. Qed.

Lemma st_bind_ok {S E A B} (m : st S E A) (k : A -> st S E B) s a s' :
  m s = (Ok a, s') -> st_bind m k s = k a s'.
Proof. intros Hm. unfold st_bind. now rewrite Hm. Qed.

Lemma st_bind_fail {S E A B} (m : st S E A) (k : A -> st S E B) s e s' :
  m s = (Err e, s') -> st_bind m k s = (Err e, s').
Proof. intros Hm. unfold st_bind. now rewrite Hm. Qed.

Lemma st_bind_ext {S E A B} (m : st S E A) (k k' : A -> st S E B) s :
  (forall a s', k a s' = k' a s') -> st_bind m k s = st_bind m k' s.
Proof. intros Hk. unfold st_bind. destruct (m s) as [[a|e] s']; [apply Hk|reflexivity]. Qed.

Lemma st_bind_ext_l {S E A B} (m m' : st S E A) (k : A -> st S E B) s :
  (forall s', m s' = m' s') -> st_bind m k s = st_bind m' k s.
Proof. intros Hm. unfold st_bind. now rewrite Hm. Qed.

Lemma for_each_cons {S E X} (body : X -> st S E unit) x xs :
  for_each body (x :: xs) = st_bind (body x) (fun _ => for_each body xs).
Proof. reflexivity. Qed.

#[export] Hint Rewrite @st_bind_ret_l @st_bind_err @st_bind_assoc : naming.

(** Unfold the monad on a concrete program. *)
Ltac st_simpl :=
  repeat (autorewrite with naming; cbn [st_bind st_ret st_err for_each]).

(** ** Signed 64-bit integers *)

Local Open Scope Z_scope.

Definition u64_modulus : Z := 2 ^ 64.
Definition i64_min : Z := - 2 ^ 63.
Definition i64_max : Z := 2 ^ 63 - 1.

Definition in_i64 (z : Z) : Prop := i64_min <= z <= i64_max.
Definition in_u64 (z : Z) : Prop := 0 <= z < u64_modulus.

#[export] Instance in_i64_dec z : Decision (in_i64 z).
Proof. unfold in_i64. apply _. Defined.

(** Rust's [u as i64] for [u : u64]: two's-complement reinterpretation. *)
Definition as_i64 (u : Z) : Z :=
  if Z.ltb u (2 ^ 63) then u else u - u64_modulus.

(** The wrap-around of a 64-bit unsigned operation. *)
Definition wrap_u64 (z : Z) : Z := z mod u64_modulus.

Lemma wrap_u64_range z : in_u64 (wrap_u64 z).
Proof. unfold in_u64, wrap_u64, u64_modulus. apply Z.mod_pos_bound. lia. Qed.

Lemma as_i64_range u : in_u64 u -> in_i64 (as_i64 u).
Proof.
  unfold in_u64, in_i64, as_i64, i64_min, i64_max, u64_modulus. intros Hu.
  destruct (Z.ltb_spec u (2 ^ 63)); lia.
Qed.

#[export] Hint Resolve wrap_u64_range as_i64_range : naming.

(** ** [?] on a plain [Result] *)

Definition res_bind {A B E} (r : Result A E) (k : A -> Result B E) : Result B E :=
  match r with
  | Ok a => k a
  | Err e => Err e
  end.

Notation "'let*' x := r 'in' k" := (res_bind r (fun x => k))
  (at level 100, x name, r at level 100, k at level 200) : naming_scope.

(** A pure [Result] in the monad; and reading the state. *)
Definition st_of_result {S E A} (r : Result A E) : st S E A := fun s => (r, s).
Definition st_read {S E A} (f : S -> A) : st S E A := fun s => (Ok (f s), s).
