(* ===== verification/Hasher.v ===== *)
(** * The identity hasher: [convert::name_to_hash]

    consts.rs computes every key as
    [convert::name_to_hash(typing_deps_hash::DepType::GConst, &name)].
    Neither function is under src/, so this file models them from the spec
    (section 4.1).  [DepType] is the kind enumeration of the spec.  The
    class [NameHasher] is what the index relies on: a total function from
    a kind and a name to a signed 64-bit key.  Every theorem about consts.rs
    holds for every instance of the class.

    Neither the sources nor the spec give the real algorithm.  [fnv_hasher]
    is a sample instance, FNV-1a 64 over a kind byte and then the bytes of
    the name, reinterpreted as [i64].  It serves only to evaluate the
    witnesses on concrete names.  No theorem depends on its collision
    behaviour. *)

From S2P Require Import Prelude.
From Stdlib Require Import Ascii.

Local Open Scope Z_scope.

(** The symbol kinds of the spec's example list (section 3).  [GConst] is
    the kind of consts.rs. *)
Inductive DepType : Type :=
| GConst
| Fun
| Class
| TypeAlias
| Module.

#[export] Instance DepType_eq_dec : EqDecision DepType.
Proof. solve_decision. Defined.

(** [dep_type as u8] *)
Definition dep_type_tag (k : DepType) : Z :=
  match k with
  | GConst => 0
  | Fun => 1
  | Class => 2
  | TypeAlias => 3
  | Module => 4
  end.

(** What the index needs of the hasher: a total function into the key
    column's signed 64-bit range. *)
Class NameHasher : Type := {
  name_to_hash : DepType -> string -> Z;
  name_to_hash_in_i64 : forall k name, in_i64 (name_to_hash k name)
}.

Module Fnv.
Definition offset_basis : Z := 14695981039346656037.
Definition prime : Z := 1099511628211.
(** One FNV-1a round: [h = (h ^ b).wrapping_mul(prime)]. *)
Definition write_u8 (h b : Z) : Z := wrap_u64 (Z.lxor h b * prime).

(** [hasher.write(bytes)] *)
Definition write (h : Z) (bs : list Z) : Z := fold_left write_u8 bs h.

(** [name.as_bytes()]: a Rocq string is its list of bytes. *)
Definition name_bytes (name : string) : list Z :=
  map (fun b => Z.of_N (Byte.to_N b)) (String.list_byte_of_string name).

(** The sample hash: the kind byte, then the name. *)
Definition hash1 (k : DepType) (name : string) : Z :=
  write (write_u8 offset_basis (dep_type_tag k)) (name_bytes name).
End Fnv.

(** The sample [name_to_hash]: the unsigned hash cast [as i64]. *)
Definition fnv_name_to_hash (k : DepType) (name : string) : Z :=
  as_i64 (Fnv.hash1 k name).

Lemma fnv_write_u8_in_u64 h b : in_u64 (Fnv.write_u8 h b).
Proof. apply wrap_u64_range. Qed.
#[export] Hint Resolve fnv_write_u8_in_u64 : naming.

Lemma fnv_write_in_u64 h bs : in_u64 h -> in_u64 (Fnv.write h bs).
Proof.
  revert h. induction bs as [|b bs IH]; intros h Hh; [exact Hh|].
  apply IH, fnv_write_u8_in_u64.
Qed.

Lemma fnv_hash1_in_u64 k name : in_u64 (Fnv.hash1 k name).
Proof. apply fnv_write_in_u64, wrap_u64_range. Qed.

#[export] Instance fnv_hasher : NameHasher := {|
  name_to_hash := fnv_name_to_hash;
  name_to_hash_in_i64 k name := as_i64_range _ (fnv_hash1_in_u64 k name)
|}.
