(* ===== verification/RelativePath.v ===== *)
(** * Relative paths of the file-location store

    [get_path] builds its result with [RelativePath::make(prefix, suffix)].
    The prefix comes from the [PATH_PREFIX_TYPE] column and the suffix from
    [PATH_SUFFIX].  The type and its prefix enumeration belong to hack's
    [oxidized::relative_path], not to src/, so they are modelled from the
    spec (section 3): a prefix names a root category and the suffix is the
    path below that root.  The file store writes a prefix as its integer
    discriminant, and [prefix_try_from_usize] reads it back. *)

From S2P Require Import Prelude.

Local Open Scope Z_scope.

Inductive Prefix : Type :=
| Root
| Hhi
| Dummy
| Tmp.

#[export] Instance Prefix_eq_dec : EqDecision Prefix.
Proof. solve_decision. Defined.

(** The discriminant stored in [PATH_PREFIX_TYPE]. *)
Definition prefix_to_usize (p : Prefix) : Z :=
  match p with
  | Root => 0
  | Hhi => 1
  | Dummy => 2
  | Tmp => 3
  end.

(** [Prefix::try_from_usize]: [None] outside the enumeration. *)
Definition prefix_try_from_usize (i : Z) : option Prefix :=
  match i with
  | 0 => Some Root
  | 1 => Some Hhi
  | 2 => Some Dummy
  | 3 => Some Tmp
  | _ => None
  end.

Record RelativePath : Type := mk_relative_path {
  rp_prefix : Prefix;
  rp_suffix : string
}.

#[export] Instance RelativePath_eq_dec : EqDecision RelativePath.
Proof. solve_decision. Defined.

(** [RelativePath::make(prefix, path)] *)
Definition relative_path_make (prefix : Prefix) (path : string) : RelativePath :=
  {| rp_prefix := prefix; rp_suffix := path |}.

Lemma prefix_try_from_to_usize p : prefix_try_from_usize (prefix_to_usize p) = Some p.
Proof. now destruct p. Qed.

#[export] Hint Resolve prefix_try_from_to_usize : naming.
