(* ===== verification/Sqlite.v ===== *)
(** * The SQLite connection as rusqlite presents it to consts.rs

    The state of one [rusqlite::Connection] is the record [Db] of the two
    tables the statements of consts.rs name.  A table is [None] until it is
    created.
    - [naming_consts]: [NAMING_CONSTS], a [gmap] from the [HASH] primary key
      to [FILE_INFO_ID].  The map keeps one row per key, as the primary key
      requires.
    - [naming_file_info]: [NAMING_FILE_INFO], owned by the external
      file-location store.  It maps [FILE_INFO_ID] to the row's
      [PATH_PREFIX_TYPE] and [PATH_SUFFIX] values.  SQLite types these
      dynamically, so a value is a [sql_value].

    Besides the state, this file holds the rusqlite steps that consts.rs
    calls and that are not its own code: [sql_error] ([rusqlite::Error]),
    [prepare] (a statement naming a missing table fails when prepared),
    [query_row] (first row or [QueryReturnedNoRows]), [optional], [row_get]
    with the [FromSql] conversions of hack's [SqlitePrefix] and
    [SqlitePathBuf], and [open_in_memory]. *)

From S2P Require Import Prelude RelativePath.

Local Open Scope Z_scope.
Local Open Scope naming_scope.

Inductive sql_value : Type :=
| SqlNull
| SqlInteger (i : Z)
| SqlText (t : string).

#[export] Instance sql_value_eq_dec : EqDecision sql_value.
Proof. solve_decision. Defined.

Inductive table : Type :=
| NAMING_CONSTS
| NAMING_FILE_INFO.

#[export] Instance table_eq_dec : EqDecision table.
Proof. solve_decision. Defined.

(** The errors of [rusqlite::Error] that these statements can raise. *)
Inductive sql_error : Type :=
| NoSuchTable (t : table)
| PrimaryKeyConstraint (t : table)
| InvalidColumnIndex (idx : nat)
| InvalidColumnType (idx : nat)
| IntegralValueOutOfRange (idx : nat) (value : Z)
| QueryReturnedNoRows
| StorageFault.

#[export] Instance sql_error_eq_dec : EqDecision sql_error.
Proof. solve_decision. Defined.

Record file_info_row : Type := mk_file_info_row {
  path_prefix_type : sql_value;
  path_suffix : sql_value
}.

Record Db : Type := mk_db {
  naming_consts : option (gmap Z Z);
  naming_file_info : option (gmap Z file_info_row)
}.

Definition set_naming_consts (t : gmap Z Z) (db : Db) : Db :=
  {| naming_consts := Some t; naming_file_info := naming_file_info db |}.

Lemma set_naming_consts_id t db : naming_consts db = Some t -> set_naming_consts t db = db.
Proof. destruct db; simpl. now intros ->. Qed.

(** [Connection::open_in_memory()]: a database with no tables. *)
Definition open_in_memory : Db := mk_db None None.

(** Computations on one connection. *)
Abbreviation conn := (st Db sql_error).

Definition table_exists (db : Db) (t : table) : bool :=
  match t with
  | NAMING_CONSTS => bool_decide (is_Some (naming_consts db))
  | NAMING_FILE_INFO => bool_decide (is_Some (naming_file_info db))
  end.

(** [connection.prepare(sql)?]: compiling a statement checks that every table
    it names exists, in the order the statement names them. *)
Definition prepare (tables : list table) : conn unit := fun db =>
  match find (fun t => negb (table_exists db t)) tables with
  | Some t => (Err (NoSuchTable t), db)
  | None => (Ok tt, db)
  end.

(** [statement.query_row(params, f)]: [f] on the first row. *)
Definition query_row {A} (rows : list (list sql_value))
    (f : list sql_value -> Result A sql_error) : Result A sql_error :=
  match rows with
  | [] => Err QueryReturnedNoRows
  | row :: _ => f row
  end.

(** [OptionalExtension::optional]: no row is [None], other errors stay. *)
Definition optional {A} (r : Result A sql_error) : Result (option A) sql_error :=
  match r with
  | Ok a => Ok (Some a)
  | Err QueryReturnedNoRows => Ok None
  | Err e => Err e
  end.

Inductive from_sql_error : Type :=
| FromSqlInvalidType
| FromSqlOutOfRange (i : Z).

(** [impl FromSql for SqlitePrefix]: an integer discriminant. *)
Definition sqlite_prefix_column_result (v : sql_value) : Result Prefix from_sql_error :=
  match v with
  | SqlInteger i =>
      match prefix_try_from_usize i with
      | Some p => Ok p
      | None => Err (FromSqlOutOfRange i)
      end
  | _ => Err FromSqlInvalidType
  end.

(** [impl FromSql for SqlitePathBuf]: a text value. *)
Definition sqlite_path_buf_column_result (v : sql_value) : Result string from_sql_error :=
  match v with
  | SqlText t => Ok t
  | _ => Err FromSqlInvalidType
  end.

(** [row.get(idx)]: the conversion's error is tagged with the column. *)
Definition row_get {A} (conv : sql_value -> Result A from_sql_error)
    (row : list sql_value) (idx : nat) : Result A sql_error :=
  match row !! idx with
  | None => Err (InvalidColumnIndex idx)
  | Some v =>
      match conv v with
      | Ok a => Ok a
      | Err FromSqlInvalidType => Err (InvalidColumnType idx)
      | Err (FromSqlOutOfRange i) => Err (IntegralValueOutOfRange idx i)
      end
  end.

Lemma prepare_ok tables db :
  Forall (fun t => table_exists db t = true) tables -> prepare tables db = (Ok tt, db).
Proof.
  intros H. unfold prepare.
  destruct (find _ tables) as [t|] eqn:Hf; [|reflexivity].
  apply find_some in Hf as [Hin Hneg]. rewrite Forall_forall in H.
  apply list_elem_of_In, H in Hin. now rewrite Hin in Hneg.
Qed.

Lemma prepare_state tables db : snd (prepare tables db) = db.
Proof. unfold prepare. now destruct (find _ _). Qed.

Lemma sqlite_prefix_of_usize p :
  sqlite_prefix_column_result (SqlInteger (prefix_to_usize p)) = Ok p.
Proof. simpl. now rewrite prefix_try_from_to_usize. Qed.

#[export] Hint Resolve prepare_ok : naming.
#[export] Hint Rewrite sqlite_prefix_of_usize : naming.
