(* ===== verification/Consts.v ===== *)
(** * consts.rs: the [NAMING_CONSTS] table

    The operations of [src/hphp/hack/src/name_index/sqlite/consts.rs], one
    definition per function and per SQL statement, in the connection monad
    of [Sqlite].  They are parametric in the hasher ([NameHasher]); the
    theorems hold for every instance, and the witnesses evaluate them with
    the sample instance [Hasher.fnv_hasher].
    - [exec_create_naming_consts] is the [CREATE TABLE IF NOT EXISTS]
      statement, and [create_table] is the function.
    - [exec_insert_naming_consts] is the [INSERT].  A key that is already
      present fails on the primary key and changes nothing.  [insert]
      prepares the statement, then runs [for_each] over the names and stops
      at the first error.
    - [select_naming_consts] is the [SELECT ... LEFT JOIN].  A row whose
      file id has no file record carries two [NULL]s.  [get_path_row] is
      the row closure, and [get_path] is the function.
    - [test_add_const] is the unit test; it only unwraps the results of
      [create_table] and [insert].

    The theorems give the outcome of each function on every branch.
    [insert] writes exactly a prefix of the names, up to the first key
    already present.  There are round trips from [insert] to [get_path],
    and the behaviour on hash collisions, where the first file wins and
    the second insert fails. *)

From S2P Require Import Prelude Hasher RelativePath Sqlite.

Local Open Scope Z_scope.
Local Open Scope naming_scope.

Section Consts.
Context `{NameHasher}.

(** [convert::name_to_hash(DepType::GConst, &name)] *)
Definition gconst_hash (name : string) : Z := name_to_hash GConst name.

(** [CREATE TABLE IF NOT EXISTS NAMING_CONSTS (HASH INTEGER PRIMARY KEY
    NOT NULL, FILE_INFO_ID INTEGER NOT NULL)] *)
Definition exec_create_naming_consts : conn unit := fun db =>
  match naming_consts db with
  | Some _ => (Ok tt, db)
  | None => (Ok tt, set_naming_consts ∅ db)
  end.

Definition create_table : conn unit :=
  exec_create_naming_consts ;?
  st_ret tt.

(** [INSERT INTO NAMING_CONSTS (HASH, FILE_INFO_ID) VALUES (?, ?)] *)
Definition exec_insert_naming_consts (hash file_info_id : Z) : conn unit := fun db =>
  match naming_consts db with
  | None => (Err (NoSuchTable NAMING_CONSTS), db)
  | Some t =>
      match t !! hash with
      | Some _ => (Err (PrimaryKeyConstraint NAMING_CONSTS), db)
      | None => (Ok tt, set_naming_consts (<[hash := file_info_id]> t) db)
      end
  end.

(** The loop body: hash the name, execute the prepared statement. *)
Definition insert_name (file_info_id : Z) (name : string) : conn unit :=
  let hash := gconst_hash name in
  exec_insert_naming_consts hash file_info_id.

Definition insert (file_info_id : Z) (names : list string) : conn unit :=
  prepare [NAMING_CONSTS] ;?
  for_each (insert_name file_info_id) names ;?
  st_ret tt.

(** The joined row: a file id with no [NAMING_FILE_INFO] record gives two
    [NULL] columns. *)
Definition join_file_info (fi : gmap Z file_info_row) (file_info_id : Z) : list sql_value :=
  match fi !! file_info_id with
  | Some r => [path_prefix_type r; path_suffix r]
  | None => [SqlNull; SqlNull]
  end.

(** [SELECT PATH_PREFIX_TYPE, PATH_SUFFIX FROM NAMING_CONSTS LEFT JOIN
    NAMING_FILE_INFO ON ... WHERE NAMING_CONSTS.HASH = ?] *)
Definition select_naming_consts (hash : Z) (db : Db) : list (list sql_value) :=
  match naming_consts db, naming_file_info db with
  | Some t, Some fi =>
      match t !! hash with
      | Some file_info_id => [join_file_info fi file_info_id]
      | None => []
      end
  | _, _ => []
  end.

(** The closure given to [query_row]. *)
Definition get_path_row (row : list sql_value) : Result RelativePath sql_error :=
  let* prefix := row_get sqlite_prefix_column_result row 0 in
  let* suffix := row_get sqlite_path_buf_column_result row 1 in
  Ok (relative_path_make prefix suffix).

Definition get_path (name : string) : conn (option RelativePath) :=
  prepare [NAMING_CONSTS; NAMING_FILE_INFO] ;?
  let hash := gconst_hash name in
  let? rows := st_read (select_naming_consts hash) in
  st_of_result (optional (query_row rows get_path_row)).

(** [#[test] fn test_add_const]: each [unwrap] panics on [Err]. *)
Definition test_add_const : Result unit sql_error :=
  fst ((create_table ;?
        insert 123 ["Foo"]) open_in_memory).
End Consts.

(** ** The table after a run of inserts *)

(** The keys [hs] written in order with the value [fid]. *)
Fixpoint insert_keys (t : gmap Z Z) (fid : Z) (hs : list Z) : gmap Z Z :=
  match hs with
  | [] => t
  | h :: hs' => insert_keys (<[h := fid]> t) fid hs'
  end.

Lemma lookup_insert_keys t fid hs k :
  insert_keys t fid hs !! k = if decide (k ∈ hs) then Some fid else t !! k.
Proof.
  revert t. induction hs as [|h hs IH]; intros t; cbn [insert_keys].
  - destruct (decide (k ∈ [])); [set_solver|reflexivity].
  - rewrite IH, lookup_insert. repeat case_decide; set_solver.
Qed.

Lemma set_naming_consts_twice t t' db :
  set_naming_consts t' (set_naming_consts t db) = set_naming_consts t' db.
Proof. reflexivity. Qed.

Lemma naming_consts_set t db : naming_consts (set_naming_consts t db) = Some t.
Proof. reflexivity. Qed.

Lemma naming_file_info_set t db : naming_file_info (set_naming_consts t db) = naming_file_info db.
Proof. reflexivity. Qed.

#[export] Hint Rewrite set_naming_consts_twice naming_consts_set naming_file_info_set : naming.

Section ConstsProofs.
Context `{NameHasher}.

(** The names of [pre] are pairwise distinct in key and absent from [t]. *)
Definition fresh_names (t : gmap Z Z) (pre : list string) : Prop :=
  NoDup (map gconst_hash pre) /\ Forall (fun n => t !! gconst_hash n = None) pre.

Lemma exec_insert_fresh t db h fid :
  naming_consts db = Some t -> t !! h = None ->
  exec_insert_naming_consts h fid db = (Ok tt, set_naming_consts (<[h := fid]> t) db).
Proof. intros Hdb Hh. unfold exec_insert_naming_consts. now rewrite Hdb, Hh. Qed.

Lemma exec_insert_present t db h fid fid' :
  naming_consts db = Some t -> t !! h = Some fid' ->
  exec_insert_naming_consts h fid db = (Err (PrimaryKeyConstraint NAMING_CONSTS), db).
Proof. intros Hdb Hh. unfold exec_insert_naming_consts. now rewrite Hdb, Hh. Qed.

(** The loop writes a collision-free prefix one row per name. *)
Lemma for_each_insert_fresh fid pre rest t db :
  naming_consts db = Some t -> fresh_names t pre ->
  for_each (insert_name fid) (pre ++ rest) db =
  for_each (insert_name fid) rest
    (set_naming_consts (insert_keys t fid (map gconst_hash pre)) db).
Proof.
  revert t db. induction pre as [|n pre IH]; intros t db Hdb [Hnd Hfr].
  - destruct db as [c fi]; simpl in *; subst. reflexivity.
  - inversion Hnd as [|? ? Hnin Hnd']; subst. inversion Hfr as [|? ? Hn Hfr']; subst.
    cbn [app for_each]. unfold insert_name at 1.
    rewrite (st_bind_ok _ _ _ tt _ (exec_insert_fresh t db _ fid Hdb Hn)).
    rewrite (IH (<[gconst_hash n := fid]> t)); [reflexivity|reflexivity|split; [exact Hnd'|]].
    apply Forall_forall. intros n' Hn'. rewrite lookup_insert_ne.
    + rewrite Forall_forall in Hfr'. now apply Hfr'.
    + intros Heq. apply Hnin. rewrite Heq. now apply list_elem_of_fmap_2.
Qed.
Lemma insert_unfold fid names db t :
  naming_consts db = Some t ->
  insert fid names db = st_bind (for_each (insert_name fid) names) (fun _ => st_ret tt) db.
Proof.
  intros Hdb. unfold insert. rewrite (st_bind_ok _ _ db tt db); [reflexivity|].
  apply prepare_ok. repeat constructor. simpl. now rewrite Hdb.
Qed.

(** A collision-free [insert] on an existing table writes one row per name. *)
Lemma insert_fresh_run fid names db t :
  naming_consts db = Some t -> fresh_names t names ->
  insert fid names db = (Ok tt, set_naming_consts (insert_keys t fid (map gconst_hash names)) db).
Proof.
  intros Hdb Hfr. pose proof (for_each_insert_fresh fid names [] t db Hdb Hfr) as E.
  rewrite app_nil_r in E. rewrite (insert_unfold _ _ _ t Hdb). unfold st_bind. now rewrite E.
Qed.

(** C1: [insert] on names whose keys are pairwise distinct and absent
    from the table succeeds.  Afterwards each name's key maps to the file
    id and every other key keeps its row. *)
Theorem insert_success fid names db t :
  naming_consts db = Some t -> fresh_names t names ->
  insert fid names db = (Ok tt, set_naming_consts (insert_keys t fid (map gconst_hash names)) db) /\
  forall k, insert_keys t fid (map gconst_hash names) !! k =
            if decide (k ∈ map gconst_hash names) then Some fid else t !! k.
Proof.
  intros Hdb Hfr. split; [exact (insert_fresh_run fid names db t Hdb Hfr)|apply lookup_insert_keys].
Qed.

(** C2: [insert] stops at the first name whose key is already taken,
    either by a row of the table or by an earlier name of the same
    call.  It fails on the primary key.  The rows of the names before
    it stay written (there is no transaction), and the names after it
    are not consumed. *)
Theorem insert_first_collision fid pre n post db t :
  naming_consts db = Some t -> fresh_names t pre ->
  (is_Some (t !! gconst_hash n) \/ gconst_hash n ∈ map gconst_hash pre) ->
  insert fid (pre ++ n :: post) db =
  (Err (PrimaryKeyConstraint NAMING_CONSTS),
   set_naming_consts (insert_keys t fid (map gconst_hash pre)) db).
Proof.
  intros Hdb Hfr Hcol.
  assert (is_Some (insert_keys t fid (map gconst_hash pre) !! gconst_hash n)) as [v Hv].
  { rewrite lookup_insert_keys. case_decide; [eauto|]. destruct Hcol; [done|contradiction]. }
  rewrite (insert_unfold _ _ _ t Hdb). unfold st_bind.
  rewrite (for_each_insert_fresh fid pre _ t db Hdb Hfr). cbn [for_each]. unfold st_bind.
  unfold insert_name. now rewrite (exec_insert_present _ _ _ fid v (naming_consts_set _ db) Hv).
Qed.

(** C3: without the table, preparing the [INSERT] fails before any
    name is read, even for an empty iterator. *)
Theorem insert_no_table fid names db :
  naming_consts db = None ->
  insert fid names db = (Err (NoSuchTable NAMING_CONSTS), db).
Proof. intros Hdb. unfold insert, st_bind, prepare. cbn [find table_exists]. now rewrite Hdb. Qed.

(** *** [get_path] *)

Lemma get_path_tables name db t fi :
  naming_consts db = Some t -> naming_file_info db = Some fi ->
  get_path name db =
  (optional (query_row (select_naming_consts (gconst_hash name) db) get_path_row), db).
Proof.
  intros Hc Hf. unfold get_path, st_bind.
  rewrite prepare_ok; [reflexivity|]. repeat constructor; simpl; [rewrite Hc|rewrite Hf]; reflexivity.
Qed.

(** With both tables, a lookup is the key's row, if any, read by
    [get_path_row]. *)
Lemma get_path_lookup name db t fi :
  naming_consts db = Some t -> naming_file_info db = Some fi ->
  get_path name db =
  (match t !! gconst_hash name with
   | None => Ok None
   | Some fid => optional (get_path_row (join_file_info fi fid))
   end, db).
Proof.
  intros Hc Hf. rewrite (get_path_tables _ _ t fi Hc Hf).
  unfold select_naming_consts. rewrite Hc, Hf. now destruct (t !! gconst_hash name).
Qed.

(** A well-formed file record reads back as its path. *)
Lemma join_file_row fi fid p suffix :
  fi !! fid = Some (mk_file_info_row (SqlInteger (prefix_to_usize p)) (SqlText suffix)) ->
  optional (get_path_row (join_file_info fi fid)) = Ok (Some (relative_path_make p suffix)).
Proof.
  intros Hfid. unfold join_file_info. rewrite Hfid.
  unfold get_path_row, row_get, res_bind. simpl. now rewrite prefix_try_from_to_usize.
Qed.

(** C4: a name whose key has no row is [Ok None], and nothing changes. *)
Theorem get_path_unknown name db t fi :
  naming_consts db = Some t -> naming_file_info db = Some fi ->
  t !! gconst_hash name = None ->
  get_path name db = (Ok None, db).
Proof.
  intros Hc Hf Hk. rewrite (get_path_lookup _ _ t fi Hc Hf). now rewrite Hk.
Qed.

(** C5: a name whose key maps to a file id with a well-formed file record
    is [Ok (Some path)], the path made from that record's prefix and
    suffix. *)
Theorem get_path_found name db t fi fid p suffix :
  naming_consts db = Some t -> naming_file_info db = Some fi ->
  t !! gconst_hash name = Some fid ->
  fi !! fid = Some (mk_file_info_row (SqlInteger (prefix_to_usize p)) (SqlText suffix)) ->
  get_path name db = (Ok (Some (relative_path_make p suffix)), db).
Proof.
  intros Hc Hf Hk Hfid. rewrite (get_path_lookup _ _ t fi Hc Hf), Hk.
  now rewrite (join_file_row fi fid p suffix Hfid).
Qed.

(** C6: a row whose file id has no record in [NAMING_FILE_INFO] is not
    [None].  The [LEFT JOIN] yields [NULL] columns, and reading column 0
    as a prefix fails with [InvalidColumnType 0]. *)
Theorem get_path_dangling name db t fi fid :
  naming_consts db = Some t -> naming_file_info db = Some fi ->
  t !! gconst_hash name = Some fid -> fi !! fid = None ->
  get_path name db = (Err (InvalidColumnType 0), db).
Proof.
  intros Hc Hf Hk Hfid. rewrite (get_path_tables _ _ t fi Hc Hf).
  unfold select_naming_consts, join_file_info. now rewrite Hc, Hf, Hk, Hfid.
Qed.

(** Without either table the [SELECT] fails to prepare. *)
Lemma get_path_no_consts name db :
  naming_consts db = None -> get_path name db = (Err (NoSuchTable NAMING_CONSTS), db).
Proof. intros Hc. unfold get_path, st_bind, prepare. cbn [find table_exists]. now rewrite Hc. Qed.

(** C13: [get_path] needs the file-location store's table even for a name
    that has no row: without [NAMING_FILE_INFO] the [SELECT] fails to
    prepare, so an unknown name is an error rather than [None]. *)
Theorem get_path_no_file_info name db t :
  naming_consts db = Some t -> naming_file_info db = None ->
  get_path name db = (Err (NoSuchTable NAMING_FILE_INFO), db).
Proof.
  intros Hc Hf. unfold get_path, st_bind, prepare. cbn [find table_exists].
  now rewrite Hc, Hf.
Qed.

(** C19: error taxonomy of [get_path].  It fails only because a table is
    missing or because a file record's columns do not convert.  A missing
    row is never an error ([.optional()]), and the joined row always has
    both columns. *)
Theorem get_path_errors name db e db' :
  get_path name db = (Err e, db') ->
  e = NoSuchTable NAMING_CONSTS \/ e = NoSuchTable NAMING_FILE_INFO \/
  e = InvalidColumnType 0 \/ e = InvalidColumnType 1 \/
  exists i, e = IntegralValueOutOfRange 0 i.
Proof.
  destruct (naming_consts db) as [t|] eqn:Hc.
  2:{ rewrite (get_path_no_consts _ _ Hc). intros [= <- _]. now left. }
  destruct (naming_file_info db) as [fi|] eqn:Hf.
  2:{ unfold get_path, st_bind, prepare. cbn [find table_exists]. rewrite Hc, Hf.
      intros [= <- _]. tauto. }
  rewrite (get_path_lookup _ _ t fi Hc Hf). destruct (t !! _) as [fid|]; [|discriminate].
  unfold join_file_info, get_path_row, res_bind, row_get, optional.
  destruct (fi !! fid) as [[v1 v2]|]; cbn;
    repeat (case_match; simplify_eq/=); try (intros [= <- _]; eauto 6).
  (* [SqlitePathBuf] never reports an out-of-range value. *)
  destruct v2; discriminate.
Qed.

(** *** [create_table], round trips, collisions, the test *)

Definition consts_or_empty (db : Db) : gmap Z Z := default ∅ (naming_consts db).

Lemma create_table_eq db :
  create_table db = (Ok tt, set_naming_consts (consts_or_empty db) db).
Proof. destruct db as [[t|] fi]; reflexivity. Qed.

(** C7: [create_table] always succeeds.  Running it twice is running it
    once, and on an existing table it keeps every row. *)
Theorem create_table_idempotent db :
  fst (create_table db) = Ok tt /\
  (create_table ;? create_table) db = create_table db /\
  forall t, naming_consts db = Some t -> create_table db = (Ok tt, db).
Proof.
  split; [|split].
  - now rewrite create_table_eq.
  - unfold st_bind. now rewrite !create_table_eq.
  - intros t Hdb. rewrite create_table_eq. destruct db as [c fi]; simpl in *. now subst.
Qed.

(** Lookups see only the key: names that share a key share a result. *)
Lemma get_path_same_hash n1 n2 db :
  gconst_hash n1 = gconst_hash n2 -> get_path n1 db = get_path n2 db.
Proof. intros Heq. unfold get_path. now rewrite Heq. Qed.

Lemma fresh_names_single t n : t !! gconst_hash n = None -> fresh_names t [n].
Proof. intros Hn. split; repeat constructor; [set_solver|exact Hn]. Qed.

Lemma insert_single fid n db t :
  naming_consts db = Some t -> t !! gconst_hash n = None ->
  insert fid [n] db = (Ok tt, set_naming_consts (<[gconst_hash n := fid]> t) db).
Proof. intros Hdb Hn. apply (insert_fresh_run fid [n] db t Hdb), fresh_names_single, Hn. Qed.

(** C8: round trip.  After [create_table] and [insert fid [name]] on a
    database where the name's key is free, [get_path name] returns the
    path of [fid]'s file record. *)
Theorem insert_get_path_roundtrip fid name p suffix db fi :
  naming_file_info db = Some fi ->
  fi !! fid = Some (mk_file_info_row (SqlInteger (prefix_to_usize p)) (SqlText suffix)) ->
  consts_or_empty db !! gconst_hash name = None ->
  fst ((create_table ;? insert fid [name] ;? get_path name) db) =
  Ok (Some (relative_path_make p suffix)).
Proof.
  intros Hf Hfid Hk. unfold st_bind at 1. rewrite create_table_eq.
  unfold st_bind. rewrite (insert_single fid name _ _ (naming_consts_set _ db) Hk).
  erewrite get_path_lookup; [|apply naming_consts_set|rewrite !naming_file_info_set; exact Hf].
  rewrite lookup_insert_eq. now rewrite (join_file_row fi fid p suffix Hfid).
Qed.

(** C9: collisions.  When two names share a key, the first insert wins.
    The second [insert] fails on the primary key and leaves the table as
    it was.  A lookup of the second name then returns the first name's
    file: the collision cannot be detected. *)
Theorem collision_first_wins fid1 fid2 n1 n2 db t :
  naming_consts db = Some t -> t !! gconst_hash n1 = None ->
  gconst_hash n1 = gconst_hash n2 ->
  let db1 := set_naming_consts (<[gconst_hash n1 := fid1]> t) db in
  insert fid1 [n1] db = (Ok tt, db1) /\
  insert fid2 [n2] db1 = (Err (PrimaryKeyConstraint NAMING_CONSTS), db1) /\
  get_path n2 db1 = get_path n1 db1.
Proof.
  intros Hdb Hn1 Hcol db1. split; [|split].
  - now apply insert_single.
  - subst db1. rewrite (insert_unfold _ _ _ _ (naming_consts_set _ db)). unfold st_bind. cbn [for_each].
    unfold st_bind, insert_name.
    rewrite (exec_insert_present _ _ _ fid2 fid1 (naming_consts_set _ db)); [reflexivity|].
    rewrite <- Hcol. apply lookup_insert_eq.
  - now apply get_path_same_hash.
Qed.

End ConstsProofs.

#[export] Instance fresh_names_dec `{NameHasher} t pre : Decision (fresh_names t pre).
Proof. unfold fresh_names. apply _. Defined.

(** ** Concrete databases, hashed with [fnv_hasher] *)

Definition file_row (p : Prefix) (suffix : string) : file_info_row :=
  mk_file_info_row (SqlInteger (prefix_to_usize p)) (SqlText suffix).

(** The spec's scenarios: file 123 is [foo.php]; files 1 and 2 are [a.php]
    and [c.php] under the hhi root. *)
Definition files_db : Db :=
  mk_db None (Some {[ 123 := file_row Root "foo.php";
                      1 := file_row Hhi "a.php";
                      2 := file_row Hhi "c.php" ]}).

Definition table_db : Db := set_naming_consts ∅ files_db.

Lemma insert_success_witness :
  fresh_names ∅ ["Foo"; "Bar"] /\
  fst (insert 1 ["Foo"; "Bar"] table_db) = Ok tt.
Proof.
  assert (Hfr : fresh_names ∅ ["Foo"; "Bar"]) by (apply (bool_decide_unpack (fresh_names _ _)); vm_compute; reflexivity).
  split; [exact Hfr|].
  now rewrite (proj1 (insert_success 1 ["Foo"; "Bar"] table_db ∅ eq_refl Hfr)).
Defined.

Lemma insert_first_collision_witness :
  fresh_names ∅ ["Foo"] /\
  fst (insert 1 (["Foo"] ++ "Foo" :: ["Bar"]) table_db) = Err (PrimaryKeyConstraint NAMING_CONSTS).
Proof.
  assert (Hfr : fresh_names ∅ ["Foo"]) by (apply (bool_decide_unpack (fresh_names _ _)); vm_compute; reflexivity).
  split; [exact Hfr|].
  rewrite (insert_first_collision 1 ["Foo"] "Foo" ["Bar"] table_db ∅ eq_refl Hfr); [reflexivity|].
  right. set_solver.
Defined.

Lemma insert_no_table_witness :
  naming_consts files_db = None /\ insert 1 [] files_db = (Err (NoSuchTable NAMING_CONSTS), files_db).
Proof. split; [reflexivity|]. apply insert_no_table. reflexivity. Defined.

Lemma get_path_unknown_witness :
  get_path "Bar" table_db = (Ok None, table_db).
Proof. apply (get_path_unknown "Bar" table_db ∅ _ eq_refl eq_refl). apply lookup_empty. Defined.

Definition foo_db : Db := set_naming_consts {[ gconst_hash "Foo" := 123 ]} files_db.

Lemma get_path_found_witness :
  get_path "Foo" foo_db = (Ok (Some (relative_path_make Root "foo.php")), foo_db).
Proof.
  apply (get_path_found "Foo" foo_db _ _ 123 Root "foo.php" eq_refl eq_refl);
    vm_compute; reflexivity.
Defined.

Definition dangling_db : Db := set_naming_consts {[ gconst_hash "Foo" := 7 ]} files_db.

Lemma get_path_dangling_witness :
  get_path "Foo" dangling_db = (Err (InvalidColumnType 0), dangling_db).
Proof. apply (get_path_dangling "Foo" dangling_db _ _ 7 eq_refl eq_refl); vm_compute; reflexivity. Defined.

Lemma get_path_errors_witness :
  get_path "Foo" dangling_db = (Err (InvalidColumnType 0), dangling_db) /\
  (InvalidColumnType 0 = NoSuchTable NAMING_CONSTS \/ InvalidColumnType 0 = NoSuchTable NAMING_FILE_INFO \/
   InvalidColumnType 0 = InvalidColumnType 0 \/ InvalidColumnType 0 = InvalidColumnType 1 \/
   exists i, InvalidColumnType 0 = IntegralValueOutOfRange 0 i).
Proof.
  assert (Hg : get_path "Foo" dangling_db = (Err (InvalidColumnType 0), dangling_db))
    by (vm_compute; reflexivity).
  split; [exact Hg|exact (get_path_errors "Foo" dangling_db _ _ Hg)].
Defined.

Lemma insert_get_path_roundtrip_witness :
  fst ((create_table ;? insert 123 ["Foo"] ;? get_path "Foo") files_db) =
  Ok (Some (relative_path_make Root "foo.php")).
Proof. apply (insert_get_path_roundtrip 123 "Foo" Root "foo.php" files_db _ eq_refl); reflexivity. Defined.

Lemma collision_first_wins_witness :
  insert 2 ["Foo"] (set_naming_consts {[ gconst_hash "Foo" := 1 ]} table_db) =
  (Err (PrimaryKeyConstraint NAMING_CONSTS), set_naming_consts {[ gconst_hash "Foo" := 1 ]} table_db).
Proof.
  apply (proj1 (proj2 (collision_first_wins 1 2 "Foo" "Foo" table_db ∅ eq_refl (lookup_empty _) eq_refl))).
Defined.

Lemma get_path_no_file_info_witness :
  get_path "Foo" (set_naming_consts ∅ open_in_memory) =
  (Err (NoSuchTable NAMING_FILE_INFO), set_naming_consts ∅ open_in_memory).
Proof. apply (get_path_no_file_info "Foo" _ ∅); reflexivity. Defined.

