(* ===== verification/Faults.v ===== *)
(** * Storage faults during [insert]

    Spec section 7: any statement may fail with a storage error (I/O,
    disk full, corruption).  A failed SQLite statement is atomic: it leaves
    the database as it was.  [insert_loop_run] and [insert_run] are the
    executions of [Consts.insert] in which every [INSERT], and the
    [prepare] before them, may also fail with [StorageFault].  The
    fault-free run is [Consts.insert] itself.

    The theorem: a run that fails leaves exactly the rows of a prefix of
    the names, and a run that succeeds is the fault-free [insert].  The
    helpers [consts_only] record that [insert] writes [NAMING_CONSTS]
    only; [Trace] uses them over whole runs. *)

From S2P Require Import Prelude Hasher RelativePath Sqlite Consts.

Local Open Scope Z_scope.
Local Open Scope naming_scope.

Section Faults.
Context `{NameHasher}.

Inductive insert_loop_run (fid : Z) : Db -> list string -> Result unit sql_error -> Db -> Prop :=
| ILR_done db :
    insert_loop_run fid db [] (Ok tt) db
| ILR_step db n ns db1 r db' :
    insert_name fid n db = (Ok tt, db1) ->
    insert_loop_run fid db1 ns r db' ->
    insert_loop_run fid db (n :: ns) r db'
| ILR_error db n ns e db1 :
    insert_name fid n db = (Err e, db1) ->
    insert_loop_run fid db (n :: ns) (Err e) db1
| ILR_fault db n ns :
    insert_loop_run fid db (n :: ns) (Err StorageFault) db.

Inductive insert_run (fid : Z) (names : list string) : Db -> Result unit sql_error -> Db -> Prop :=
| IR_prepare_error db e db' :
    prepare [NAMING_CONSTS] db = (Err e, db') ->
    insert_run fid names db (Err e) db'
| IR_prepare_fault db :
    insert_run fid names db (Err StorageFault) db
| IR_loop db r db' :
    prepare [NAMING_CONSTS] db = (Ok tt, db) ->
    insert_loop_run fid db names r db' ->
    insert_run fid names db r db'.
End Faults.

Section FaultsProofs.
Context `{NameHasher}.

(** A failing statement of consts.rs leaves the database as it was. *)
Lemma insert_name_err_state fid n db e db1 :
  insert_name fid n db = (Err e, db1) -> db1 = db.
Proof.
  unfold insert_name, exec_insert_naming_consts.
  destruct (naming_consts db) as [t|]; [destruct (t !! _)|]; congruence.
Qed.

(** Every run of the loop stops after a prefix of the names. *)
Lemma insert_loop_run_prefix fid db names r db' :
  insert_loop_run fid db names r db' ->
  exists k : nat, (k <= length names)%nat /\
    snd (for_each (insert_name fid) (take k names) db) = db' /\
    (r = Ok tt -> k = length names /\ fst (for_each (insert_name fid) names db) = Ok tt).
Proof.
  induction 1 as [db|db n ns db1 r db' Hn _ (k & Hk & Hs & Hok)|db n ns e db1 Hn|db n ns].
  - exists 0%nat. repeat split; auto; lia.
  - exists (S k). cbn [length take for_each]. unfold st_bind. rewrite Hn. cbv beta iota.
    split; [lia|]. split; [exact Hs|].
    intros Hr. destruct (Hok Hr) as [-> Hf]. split; [reflexivity|exact Hf].
  - exists 0%nat. split; [simpl; lia|]. split; [|discriminate].
    simpl. symmetry. eapply insert_name_err_state, Hn.
  - exists 0%nat. split; [simpl; lia|]. split; [reflexivity|discriminate].
Qed.

Lemma insert_prefix_state fid names k db t :
  naming_consts db = Some t ->
  snd (for_each (insert_name fid) (take k names) db) = snd (insert fid (take k names) db).
Proof.
  intros Hdb. rewrite (insert_unfold _ _ _ t Hdb). unfold st_bind.
  now destruct (for_each _ _ db) as [[]].
Qed.

Lemma insert_nil_state fid db : snd (insert fid [] db) = db.
Proof.
  unfold insert, st_bind. pose proof (prepare_state [NAMING_CONSTS] db) as E.
  destruct (prepare _ db) as [[[]|e] db1]; simpl in *; congruence.
Qed.

(** C10: partial failure.  Whatever statement fails, by a constraint or a
    storage fault, an [insert] run leaves the database as the fault-free
    [insert] of a prefix of its names would.  A run that returns [Ok] is
    the fault-free [insert] of all of them. *)
Theorem insert_run_prefix fid names db r db' :
  insert_run fid names db r db' ->
  exists k : nat, (k <= length names)%nat /\ db' = snd (insert fid (take k names) db) /\
    (r = Ok tt -> insert fid names db = (Ok tt, db')).
Proof.
  destruct 1 as [db e db' Hp|db|db r db' Hp Hloop].
  - pose proof (prepare_state [NAMING_CONSTS] db) as E. rewrite Hp in E. simpl in E; subst.
    exists 0%nat. split; [lia|]. split; [symmetry; apply insert_nil_state|discriminate].
  - exists 0%nat. split; [lia|]. split; [symmetry; apply insert_nil_state|discriminate].
  - destruct (naming_consts db) as [t|] eqn:Hdb.
    2:{ unfold prepare in Hp. simpl in Hp. rewrite Hdb in Hp. discriminate. }
    destruct (insert_loop_run_prefix _ _ _ _ _ Hloop) as (k & Hk & Hs & Hok).
    exists k. split; [exact Hk|]. split; [rewrite <- Hs; now apply insert_prefix_state with t|].
    intros ->. destruct (Hok eq_refl) as [-> Hf].
    rewrite (insert_unfold _ _ _ t Hdb). unfold st_bind.
    rewrite take_ge in Hs by lia.
    destruct (for_each (insert_name fid) names db) as [[[]|e] db1]; simpl in *; [unfold st_ret; congruence|congruence].
Qed.

(** ** What [insert] writes *)

(** The database after a statement of consts.rs: unchanged, or the same
    but for the rows of [NAMING_CONSTS]. *)
Definition consts_only (db db' : Db) : Prop :=
  db' = db \/ exists t, db' = set_naming_consts t db.

Lemma consts_only_file_info db db' :
  consts_only db db' -> naming_file_info db' = naming_file_info db.
Proof. now intros [->|[t ->]]. Qed.

Lemma get_path_state_eq name db r db' : get_path name db = (r, db') -> db' = db.
Proof.
  intros Hg. apply (f_equal snd) in Hg. simpl in Hg. subst db'.
  unfold get_path, st_bind. pose proof (prepare_state [NAMING_CONSTS; NAMING_FILE_INFO] db) as E.
  destruct (prepare _ db) as [[[]|e] db1]; simpl in *; subst; reflexivity.
Qed.

End FaultsProofs.

(** ** Witnesses, hashed with [fnv_hasher] *)

(** A run on [Foo; Bar] whose second [INSERT] hits a storage fault keeps
    the row of [Foo], as the fault-free [insert] of [[Foo]] does. *)
Lemma insert_run_prefix_witness :
  exists k : nat, (k <= length ["Foo"; "Bar"])%nat /\
    snd (insert_name 1 "Foo" table_db) = snd (insert 1 (take k ["Foo"; "Bar"]) table_db) /\
    (Err StorageFault = Ok tt ->
     insert 1 ["Foo"; "Bar"] table_db = (Ok tt, snd (insert_name 1 "Foo" table_db))).
Proof.
  apply (insert_run_prefix 1 ["Foo"; "Bar"] table_db (Err StorageFault)).
  eapply IR_loop; [reflexivity|]. eapply ILR_step; [reflexivity|apply ILR_fault].
Defined.

