(* ===== verification/Index.v ===== *)
(** * The abstract index and the refinement by the hash-keyed table

    What consts.rs promises, stated without hashes: an index maps each
    constant name to the file id that defines it.
    - [abs_insert] adds names one by one and rejects a name already present.
    - [abs_get_path] resolves a name's file id through the file-location
      store.
    The table never stores a name, only [gconst_hash name], so it can
    implement the abstract index only while the hash is injective on the
    names in play.

    [index_rel A t] relates an abstract index [A] to the rows [t] of
    [NAMING_CONSTS].  Every name of [A] has its row under its key, and
    every row is the row of some name of [A].  The refinement theorems
    assume no collision among the names of [A] and the names of the call.
    Under that hypothesis, [insert] and [get_path] return what the
    abstract operations return, and [insert] preserves [index_rel].  So
    any sequence of collision-free inserts and lookups on the table behaves
    as the abstract index. *)

From S2P Require Import Prelude Hasher RelativePath Sqlite Consts.

Local Open Scope Z_scope.
Local Open Scope naming_scope.

Section Index.
Context `{NameHasher}.

Fixpoint abs_insert (fid : Z) (names : list string) (A : gmap string Z)
    : Result unit sql_error * gmap string Z :=
  match names with
  | [] => (Ok tt, A)
  | n :: ns =>
      match A !! n with
      | Some _ => (Err (PrimaryKeyConstraint NAMING_CONSTS), A)
      | None => abs_insert fid ns (<[n := fid]> A)
      end
  end.

(** A file id resolved through the file-location store. *)
Definition resolve_file (fi : gmap Z file_info_row) (fid : Z) : Result RelativePath sql_error :=
  get_path_row (join_file_info fi fid).

Definition abs_get_path (A : gmap string Z) (fi : gmap Z file_info_row) (name : string)
    : Result (option RelativePath) sql_error :=
  match A !! name with
  | None => Ok None
  | Some fid =>
      match resolve_file fi fid with
      | Ok p => Ok (Some p)
      | Err e => Err e
      end
  end.

Definition index_rel (A : gmap string Z) (t : gmap Z Z) : Prop :=
  (forall n fid, A !! n = Some fid -> t !! gconst_hash n = Some fid) /\
  (forall h fid, t !! h = Some fid -> exists n, gconst_hash n = h /\ A !! n = Some fid).

(** No two names of [S] share a key. *)
Definition no_collision (S : gset string) : Prop :=
  forall n1 n2, n1 ∈ S -> n2 ∈ S -> gconst_hash n1 = gconst_hash n2 -> n1 = n2.
End Index.

Section IndexProofs.
Context `{NameHasher}.

Lemma no_collision_mono S1 S2 : S1 ⊆ S2 -> no_collision S2 -> no_collision S1.
Proof. intros Hsub Hnc n1 n2 H1 H2. apply Hnc; set_solver. Qed.

Lemma index_rel_empty : index_rel ∅ ∅.
Proof. split; intros ?? Hl; rewrite lookup_empty in Hl; discriminate. Qed.

(** A name absent from the index has no row, unless another name of the
    index shares its key. *)
Lemma index_rel_lookup_none A t n :
  index_rel A t -> no_collision (dom A ∪ {[n]}) -> A !! n = None -> t !! gconst_hash n = None.
Proof.
  intros [_ Hback] Hnc HA. destruct (t !! gconst_hash n) as [fid|] eqn:Ht; [|reflexivity].
  destruct (Hback _ _ Ht) as (m & Hm & HAm).
  assert (m = n) as ->; [|congruence].
  apply Hnc; [apply elem_of_union_l, elem_of_dom; eauto|set_solver|exact Hm].
Qed.

Lemma index_rel_insert A t n fid :
  index_rel A t -> no_collision (dom A ∪ {[n]}) -> A !! n = None ->
  index_rel (<[n := fid]> A) (<[gconst_hash n := fid]> t).
Proof.
  intros [Hfwd Hback] Hnc HA. split.
  - intros m v Hm. destruct (decide (m = n)) as [->|Hne].
    + rewrite lookup_insert_eq in Hm. rewrite lookup_insert_eq. exact Hm.
    + rewrite lookup_insert_ne in Hm by congruence. rewrite lookup_insert_ne; [now apply Hfwd|].
      intros Heq. apply Hne, Hnc; [apply elem_of_union_l, elem_of_dom; eauto|set_solver|].
      now symmetry.
  - intros h v Hh. destruct (decide (gconst_hash n = h)) as [<-|Hne].
    + rewrite lookup_insert_eq in Hh. exists n. now rewrite lookup_insert_eq.
    + rewrite lookup_insert_ne in Hh by exact Hne. destruct (Hback _ _ Hh) as (m & Hm & HAm).
      exists m. split; [exact Hm|]. rewrite lookup_insert_ne; [exact HAm|congruence].
Qed.

(** The loop of [insert] simulates [abs_insert] step by step. *)
Lemma for_each_insert_refines fid names A t db :
  index_rel A t -> naming_consts db = Some t ->
  no_collision (dom A ∪ list_to_set names) ->
  exists t', for_each (insert_name fid) names db =
               (fst (abs_insert fid names A), set_naming_consts t' db) /\
             index_rel (snd (abs_insert fid names A)) t'.
Proof.
  revert A t db. induction names as [|n ns IH]; intros A t db Hrel Hdb Hnc.
  - exists t. simpl. rewrite set_naming_consts_id by exact Hdb. split; [reflexivity|exact Hrel].
  - assert (Hnc1 : no_collision (dom A ∪ {[n]})) by (eapply no_collision_mono, Hnc; set_solver).
    cbn [abs_insert for_each]. unfold insert_name at 1. destruct (A !! n) as [v|] eqn:HA.
    + exists t. rewrite set_naming_consts_id by exact Hdb. split; [|exact Hrel].
      apply st_bind_fail. exact (exec_insert_present t db _ fid v Hdb (proj1 Hrel _ _ HA)).
    + rewrite (st_bind_ok _ _ _ tt _ (exec_insert_fresh t db _ fid Hdb
                 (index_rel_lookup_none A t n Hrel Hnc1 HA))).
      destruct (IH (<[n := fid]> A) _ _ (index_rel_insert A t n fid Hrel Hnc1 HA)
                  (naming_consts_set _ db)) as (t' & Hrun & Hrel').
      { eapply no_collision_mono, Hnc. rewrite dom_insert_L. set_solver. }
      exists t'. split; [exact Hrun|exact Hrel'].
Qed.

(** C11: refinement of [insert].  On a table related to the abstract index
    [A], with no collision among [A]'s names and the names of the call,
    [insert] returns what [abs_insert] returns.  Its table is related to
    [abs_insert]'s index, so the relation is an invariant of every
    collision-free sequence of inserts. *)
Theorem insert_refines fid names A t db :
  index_rel A t -> naming_consts db = Some t ->
  no_collision (dom A ∪ list_to_set names) ->
  exists t', insert fid names db = (fst (abs_insert fid names A), set_naming_consts t' db) /\
             index_rel (snd (abs_insert fid names A)) t'.
Proof.
  intros Hrel Hdb Hnc.
  destruct (for_each_insert_refines fid names A t db Hrel Hdb Hnc) as (t' & Hrun & Hrel').
  exists t'. split; [|exact Hrel']. rewrite (insert_unfold _ _ _ t Hdb). unfold st_bind.
  rewrite Hrun. now destruct (fst (abs_insert fid names A)) as [[]|e].
Qed.

Lemma optional_get_path_row row :
  optional (get_path_row row) =
  match get_path_row row with Ok p => Ok (Some p) | Err e => Err e end.
Proof.
  unfold get_path_row, res_bind, row_get.
  repeat (case_match; simplify_eq/=); reflexivity.
Qed.

(** On a table related to [A], the row a lookup reads is the abstract
    lookup's answer, unless the name collides with a name of [A]. *)
Lemma lookup_index_rel name A t fi :
  index_rel A t -> no_collision (dom A ∪ {[name]}) ->
  match t !! gconst_hash name with
  | None => Ok None
  | Some fid => optional (get_path_row (join_file_info fi fid))
  end = abs_get_path A fi name.
Proof.
  intros Hrel Hnc. unfold abs_get_path. destruct (A !! name) as [fid|] eqn:HA.
  - rewrite (proj1 Hrel _ _ HA). now rewrite optional_get_path_row.
  - now rewrite (index_rel_lookup_none A t name Hrel Hnc HA).
Qed.

(** C12: refinement of [get_path].  On a table related to [A], a lookup
    returns the abstract lookup's answer, resolved through the same file
    store, unless the name collides with a name of [A]. *)
Theorem get_path_refines name A t fi db :
  index_rel A t -> naming_consts db = Some t -> naming_file_info db = Some fi ->
  no_collision (dom A ∪ {[name]}) ->
  get_path name db = (abs_get_path A fi name, db).
Proof.
  intros Hrel Hc Hf Hnc. rewrite (get_path_lookup _ _ t fi Hc Hf).
  now rewrite (lookup_index_rel name A t fi Hrel Hnc).
Qed.
End IndexProofs.

(** ** Witnesses, hashed with [fnv_hasher] *)

Definition index_db : Db := set_naming_consts ∅ files_db.

Lemma no_collision_foo_bar : no_collision ({[ "Foo"; "Bar" ]} : gset string).
Proof.
  intros n1 n2 H1 H2. apply elem_of_union in H1, H2.
  rewrite !elem_of_singleton in H1, H2.
  destruct H1 as [->| ->], H2 as [->| ->]; vm_compute; congruence.
Qed.

Lemma insert_refines_witness :
  exists t', insert 123 ["Foo"; "Bar"] index_db =
               (fst (abs_insert 123 ["Foo"; "Bar"] ∅), set_naming_consts t' index_db) /\
             index_rel (snd (abs_insert 123 ["Foo"; "Bar"] ∅)) t'.
Proof.
  apply (insert_refines 123 ["Foo"; "Bar"] ∅ ∅ index_db index_rel_empty eq_refl).
  eapply no_collision_mono, no_collision_foo_bar. set_solver.
Defined.

Lemma get_path_refines_witness :
  get_path "Foo" foo_db =
  (abs_get_path {[ "Foo" := 123 ]} (default ∅ (naming_file_info files_db)) "Foo", foo_db).
Proof.
  apply (get_path_refines "Foo" {[ "Foo" := 123 ]} {[ gconst_hash "Foo" := 123 ]}); [|reflexivity..|].
  - split.
    + intros n fid Hn. apply lookup_singleton_Some in Hn as [<- <-]. apply lookup_singleton_eq.
    + intros h fid Hh. apply lookup_singleton_Some in Hh as [<- <-].
      exists "Foo". split; [reflexivity|apply lookup_singleton_eq].
  - eapply no_collision_mono, no_collision_foo_bar. set_solver.
Defined.
