(* ===== verification/Laws.v ===== *)
(** * Laws of consts.rs: equivalences, bounds and well-typed lookups

    Properties that compare or bound the operations of [Consts].
    - Equivalence.  One [insert] over [xs ++ ys] is the same as [insert xs]
      followed by [insert ys]: there is no transaction around the call and
      no deduplication of its names.
    - Ordering.  Two [insert]s of fresh names with pairwise distinct keys
      commute; with a shared key the first one wins instead.
    - A freshly created table knows no name, provided the file store's
      table exists.
    - Bounds.  [insert] never removes or changes a row.  It adds at most
      one row per name, so the table grows by at most [length names].
    - Well-typed lookups.  When every [NAMING_FILE_INFO] row holds an
      integer prefix discriminant and a text suffix, and every file id of
      [NAMING_CONSTS] has its file row, [get_path] never fails.  It
      returns [None] exactly for the names without a row.  [insert] with
      a file id that has a file row keeps this referential integrity. *)

From S2P Require Import Prelude Hasher RelativePath Sqlite Consts Faults.

Local Open Scope Z_scope.
Local Open Scope naming_scope.

Section Laws.
Context `{NameHasher}.

(** Every row of the file store is well typed for [get_path_row]. *)
Definition well_typed_file_info (fi : gmap Z file_info_row) : Prop :=
  map_Forall (fun _ r => exists p s, r = mk_file_info_row (SqlInteger (prefix_to_usize p)) (SqlText s)) fi.

(** Every file id of [NAMING_CONSTS] has a file row. *)
Definition consts_refs_files (t : gmap Z Z) (fi : gmap Z file_info_row) : Prop :=
  map_Forall (fun _ fid => is_Some (fi !! fid)) t.
End Laws.

Section LawsProofs.
Context `{NameHasher}.

(** What a run of the loop does to the table: it only adds rows, at most
    one per name, each with the loop's file id. *)
Lemma for_each_insert_shape fid names db t r db' :
  naming_consts db = Some t -> for_each (insert_name fid) names db = (r, db') ->
  exists t', db' = set_naming_consts t' db /\ t ⊆ t' /\
    (size t' <= size t + length names)%nat /\
    (r = Ok tt -> size t' = (size t + length names)%nat) /\
    map_Forall (fun k v => t !! k = Some v \/ v = fid) t'.
Proof.
  revert t db. induction names as [|n ns IH]; intros t db Hdb Hrun.
  - injection Hrun as <- <-. exists t. rewrite set_naming_consts_id by exact Hdb.
    repeat split; [reflexivity|simpl; lia|simpl; lia|]. intros k v Hk. now left.
  - rewrite for_each_cons in Hrun. unfold insert_name at 1 in Hrun.
    destruct (t !! gconst_hash n) as [v|] eqn:Hn.
    + rewrite (st_bind_fail _ _ _ _ _ (exec_insert_present t db _ fid v Hdb Hn)) in Hrun.
      injection Hrun as <- <-. exists t. rewrite set_naming_consts_id by exact Hdb.
      repeat split; [reflexivity|simpl; lia|discriminate|]. intros k w Hk. now left.
    + rewrite (st_bind_ok _ _ _ tt _ (exec_insert_fresh t db _ fid Hdb Hn)) in Hrun.
      destruct (IH _ _ (naming_consts_set _ db) Hrun) as (t' & -> & Hsub & Hsz & Hok & Hvals).
      rewrite map_size_insert_None in Hsz, Hok by exact Hn.
      exists t'. repeat split.
      * etransitivity; [apply insert_subseteq, Hn|exact Hsub].
      * simpl. lia.
      * intros Hr. specialize (Hok Hr). simpl. lia.
      * intros k w Hk. destruct (Hvals k w Hk) as [Hk'|]; [|now right].
        destruct (decide (gconst_hash n = k)) as [<-|Hne].
        -- rewrite lookup_insert_eq in Hk'. right. congruence.
        -- rewrite lookup_insert_ne in Hk' by exact Hne. now left.
Qed.

(** [insert] on an existing table ends with the table the loop left. *)
Lemma insert_shape fid names db t r db' :
  naming_consts db = Some t -> insert fid names db = (r, db') ->
  exists t', db' = set_naming_consts t' db /\ t ⊆ t' /\
    (size t' <= size t + length names)%nat /\
    (r = Ok tt -> size t' = (size t + length names)%nat) /\
    map_Forall (fun k v => t !! k = Some v \/ v = fid) t'.
Proof.
  intros Hdb. rewrite (insert_unfold _ _ _ t Hdb). unfold st_bind.
  destruct (for_each (insert_name fid) names db) as [r1 db1] eqn:Hrun.
  intros Hr. eapply for_each_insert_shape in Hrun as (t' & -> & Hrest); [|exact Hdb].
  exists t'. destruct r1 as [[]|e]; cbv [st_ret] in Hr; injection Hr as <- <-; [exact (conj eq_refl Hrest)|].
  destruct Hrest as (Hsub & Hsz & _ & Hvals). repeat split; [exact Hsub|exact Hsz|discriminate|exact Hvals].
Qed.

(** A successful [INSERT] leaves a table behind. *)
Lemma insert_name_ok_table fid n db db1 :
  insert_name fid n db = (Ok tt, db1) -> exists t1, naming_consts db1 = Some t1.
Proof.
  unfold insert_name, exec_insert_naming_consts.
  destruct (naming_consts db) as [t|]; [destruct (t !! _)|]; intros [= <-]; eauto using naming_consts_set.
Qed.

Lemma insert_nil_table fid db t : naming_consts db = Some t -> insert fid [] db = (Ok tt, db).
Proof. intros Hdb. now rewrite (insert_unfold _ _ _ t Hdb). Qed.

(** One call of [insert] is its first [INSERT] followed by [insert] on
    the rest of the names, with or without the table. *)
Lemma insert_cons fid n ns db :
  insert fid (n :: ns) db = (insert_name fid n ;? insert fid ns) db.
Proof.
  destruct (naming_consts db) as [t|] eqn:Hdb.
  - rewrite (insert_unfold _ _ _ t Hdb). unfold st_bind. cbn [for_each]. unfold st_bind.
    destruct (insert_name fid n db) as [[[]|e] db1] eqn:Hn; [|reflexivity].
    destruct (insert_name_ok_table _ _ _ _ Hn) as [t1 Ht1].
    now rewrite (insert_unfold _ _ _ t1 Ht1).
  - unfold insert, st_bind, prepare. cbn [find table_exists]. rewrite Hdb. simpl.
    unfold insert_name, exec_insert_naming_consts. now rewrite Hdb.
Qed.

(** [insert] of one name is its one [INSERT]: the [prepare] before it
    fails exactly when the [INSERT] would. *)
Lemma insert_singleton fid n db : insert fid [n] db = insert_name fid n db.
Proof.
  rewrite insert_cons. unfold st_bind.
  destruct (insert_name fid n db) as [[[]|e] db1] eqn:Hn; [|reflexivity].
  destruct (insert_name_ok_table _ _ _ _ Hn) as [t1 Ht1].
  now rewrite (insert_nil_table _ _ t1 Ht1).
Qed.

(** [insert] writes [NAMING_CONSTS] only, on every branch. *)
Lemma insert_consts_only fid names db r db' :
  insert fid names db = (r, db') -> consts_only db db'.
Proof.
  destruct (naming_consts db) as [t|] eqn:Hdb.
  - intros Hrun. destruct (insert_shape _ _ _ _ _ _ Hdb Hrun) as (t' & -> & _). right. eauto.
  - unfold insert, st_bind, prepare. cbn [find table_exists]. rewrite Hdb.
    intros [= _ <-]. left. reflexivity.
Qed.

(** C14: [insert] distributes over concatenation.  Inserting [xs ++ ys]
    in one call returns and stores the same as inserting [xs] and then,
    if that succeeded, [ys]. *)
Theorem insert_app fid xs ys db :
  insert fid (xs ++ ys) db = (insert fid xs ;? insert fid ys) db.
Proof.
  revert db. induction xs as [|n xs IH]; intros db.
  - destruct (naming_consts db) as [t|] eqn:Hdb.
    + unfold st_bind. now rewrite (insert_nil_table _ _ t Hdb).
    + unfold insert, st_bind, prepare. cbn [find table_exists]. now rewrite Hdb.
  - cbn [app]. rewrite insert_cons, (st_bind_ext_l _ _ _ _ (insert_cons fid n xs)), st_bind_assoc.
    apply st_bind_ext. intros [] s. apply IH.
Qed.

(** C15: bounds on the table.  [insert] on an existing table never removes
    or changes a row, adds at most one row per name, and on success adds
    exactly one row per name. *)
Theorem insert_table_bounds fid names db t r db' :
  naming_consts db = Some t -> insert fid names db = (r, db') ->
  exists t', naming_consts db' = Some t' /\ t ⊆ t' /\
    (size t <= size t' <= size t + length names)%nat /\
    (r = Ok tt -> size t' = (size t + length names)%nat).
Proof.
  intros Hdb Hrun. destruct (insert_shape _ _ _ _ _ _ Hdb Hrun) as (t' & -> & Hsub & Hsz & Hok & _).
  exists t'. split; [apply naming_consts_set|]. split; [exact Hsub|].
  split; [split; [apply map_subseteq_size, Hsub|exact Hsz]|exact Hok].
Qed.

(** C16: well-typed lookups.  When every file row is well typed and every
    row of [NAMING_CONSTS] names a file that has a row, [get_path] never
    fails, leaves the database as it is, and returns [None] exactly for
    the names whose key has no row. *)
Theorem get_path_well_typed name db t fi :
  naming_consts db = Some t -> naming_file_info db = Some fi ->
  well_typed_file_info fi -> consts_refs_files t fi ->
  exists o, get_path name db = (Ok o, db) /\ (o = None <-> t !! gconst_hash name = None).
Proof.
  intros Hc Hf Hwt Hrefs. destruct (t !! gconst_hash name) as [fid|] eqn:Hk.
  - destruct (Hrefs _ _ Hk) as [row Hrow]. destruct (Hwt _ _ Hrow) as (p & s & ->).
    eexists. rewrite (get_path_lookup _ _ t fi Hc Hf), Hk, (join_file_row _ _ _ _ Hrow).
    split; [reflexivity|]. split; discriminate.
  - exists None. rewrite (get_path_lookup _ _ t fi Hc Hf), Hk. split; [reflexivity|tauto].
Qed.

(** C17: [insert] with a file id that has a file row keeps every row of
    [NAMING_CONSTS] pointing at a file row, whether it succeeds or not. *)
Theorem insert_keeps_refs fid names db t fi r db' :
  naming_consts db = Some t -> naming_file_info db = Some fi ->
  consts_refs_files t fi -> is_Some (fi !! fid) ->
  insert fid names db = (r, db') ->
  exists t', naming_consts db' = Some t' /\ naming_file_info db' = Some fi /\
             consts_refs_files t' fi.
Proof.
  intros Hc Hf Hrefs Hfid Hrun.
  destruct (insert_shape _ _ _ _ _ _ Hc Hrun) as (t' & -> & _ & _ & _ & Hvals).
  exists t'. split; [apply naming_consts_set|]. split; [rewrite naming_file_info_set; exact Hf|].
  intros k v Hk. destruct (Hvals k v Hk) as [Hold| ->]; [exact (Hrefs _ _ Hold)|exact Hfid].
Qed.

(** Splitting a collision-free list: its first part is collision-free,
    and so is the rest on the table the first part leaves. *)
Lemma fresh_names_app t fid xs ys :
  fresh_names t (xs ++ ys) ->
  fresh_names t xs /\ fresh_names (insert_keys t fid (map gconst_hash xs)) ys /\
  forall y x, y ∈ ys -> x ∈ xs -> gconst_hash y <> gconst_hash x.
Proof.
  intros [Hnd Hfr]. rewrite map_app in Hnd. apply NoDup_app in Hnd as (Hndx & Hdisj & Hndy).
  apply Forall_app in Hfr as [Hfx Hfy].
  assert (Hsep : forall y x, y ∈ ys -> x ∈ xs -> gconst_hash y <> gconst_hash x).
  { intros y x Hy Hx Heq. apply (Hdisj (gconst_hash x)); apply list_elem_of_fmap; eauto. }
  split; [split; assumption|]. split; [|exact Hsep]. split; [exact Hndy|].
  apply Forall_forall. intros y Hy. rewrite lookup_insert_keys. case_decide as Hin.
  - exfalso. apply list_elem_of_fmap in Hin as (x & Heq & Hx). exact (Hsep y x Hy Hx Heq).
  - rewrite Forall_forall in Hfy. exact (Hfy y Hy).
Qed.

Lemma fresh_names_comm t xs ys : fresh_names t (xs ++ ys) -> fresh_names t (ys ++ xs).
Proof.
  intros [Hnd Hfr]. split.
  - rewrite map_app in *. eapply NoDup_Permutation_proper; [apply Permutation_app_comm|exact Hnd].
  - apply Forall_app in Hfr as [??]. now apply Forall_app.
Qed.

(** Two collision-free [insert]s in a row: both succeed and write their
    keys. *)
Lemma insert_fresh_seq f1 f2 xs ys db t :
  naming_consts db = Some t -> fresh_names t (xs ++ ys) ->
  (insert f1 xs ;? insert f2 ys) db =
  (Ok tt, set_naming_consts (insert_keys (insert_keys t f1 (map gconst_hash xs)) f2 (map gconst_hash ys)) db).
Proof.
  intros Hdb Hfr. destruct (fresh_names_app t f1 xs ys Hfr) as (Hx & Hy & _).
  unfold st_bind. rewrite (insert_fresh_run f1 xs db t Hdb Hx).
  rewrite (insert_fresh_run f2 ys _ _ (naming_consts_set _ _) Hy).
  now rewrite set_naming_consts_twice.
Qed.

(** C21: ordering.  Two [insert]s whose names are all absent from the
    table and have pairwise distinct keys commute: either order succeeds
    and leaves the same database.  (When keys collide the order matters:
    the first insert wins.) *)
Theorem insert_commute f1 f2 xs ys db t :
  naming_consts db = Some t -> fresh_names t (xs ++ ys) ->
  (insert f1 xs ;? insert f2 ys) db = (insert f2 ys ;? insert f1 xs) db.
Proof.
  intros Hdb Hfr. rewrite (insert_fresh_seq f1 f2 xs ys db t Hdb Hfr).
  rewrite (insert_fresh_seq f2 f1 ys xs db t Hdb (fresh_names_comm t xs ys Hfr)).
  destruct (fresh_names_app t f1 xs ys Hfr) as (_ & _ & Hsep).
  do 2 f_equal. apply map_eq. intros k. rewrite !lookup_insert_keys.
  case_decide as Hky; case_decide as Hkx; try reflexivity. exfalso.
  apply list_elem_of_fmap in Hky as (y & -> & Hy). apply list_elem_of_fmap in Hkx as (x & Hx' & Hx).
  exact (Hsep y x Hy Hx Hx').
Qed.

(** C22: unknown names on a fresh table (spec section 8).  On a database
    without [NAMING_CONSTS] but with the file store's table,
    [create_table] followed by a lookup of any name returns [None], and
    the database then holds an empty table. *)
Theorem fresh_table_unknown name db fi :
  naming_consts db = None -> naming_file_info db = Some fi ->
  (create_table ;? get_path name) db = (Ok None, set_naming_consts ∅ db).
Proof.
  intros Hc Hf. unfold st_bind. rewrite create_table_eq.
  unfold consts_or_empty. rewrite Hc. cbn [default].
  rewrite (get_path_lookup _ _ ∅ fi (naming_consts_set _ _) (eq_trans (naming_file_info_set _ _) Hf)).
  now rewrite lookup_empty.
Qed.
End LawsProofs.

(** ** Witnesses, hashed with [fnv_hasher] *)

Lemma insert_commute_witness :
  fresh_names ∅ (["Foo"] ++ ["Bar"]) /\
  (insert 1 ["Foo"] ;? insert 2 ["Bar"]) table_db = (insert 2 ["Bar"] ;? insert 1 ["Foo"]) table_db.
Proof.
  assert (Hfr : fresh_names ∅ (["Foo"] ++ ["Bar"]))
    by (apply (bool_decide_unpack (fresh_names _ _)); vm_compute; reflexivity).
  split; [exact Hfr|]. exact (insert_commute 1 2 ["Foo"] ["Bar"] table_db ∅ eq_refl Hfr).
Defined.

Lemma fresh_table_unknown_witness :
  naming_consts files_db = None /\
  (create_table ;? get_path "Bar") files_db = (Ok None, set_naming_consts ∅ files_db).
Proof. split; [reflexivity|exact (fresh_table_unknown "Bar" files_db _ eq_refl eq_refl)]. Defined.

Lemma files_well_typed : well_typed_file_info (default ∅ (naming_file_info files_db)).
Proof.
  intros k r Hk. cbn in Hk.
  repeat (apply lookup_insert_Some in Hk as [[_ <-]|[_ Hk]]; [eexists _, _; reflexivity|]).
  apply lookup_singleton_Some in Hk as [_ <-]. eexists _, _. reflexivity.
Qed.

Lemma insert_table_bounds_witness :
  naming_consts table_db = Some ∅ /\
  exists t', naming_consts (snd (insert 1 ["Foo"; "Bar"] table_db)) = Some t' /\ ∅ ⊆ t' /\
    (size (∅ : gmap Z Z) <= size t' <= size (∅ : gmap Z Z) + length ["Foo"; "Bar"])%nat /\
    (fst (insert 1 ["Foo"; "Bar"] table_db) = Ok tt ->
     size t' = (size (∅ : gmap Z Z) + length ["Foo"; "Bar"])%nat).
Proof.
  split; [reflexivity|].
  apply (insert_table_bounds 1 ["Foo"; "Bar"] table_db ∅ _ _ eq_refl).
  apply surjective_pairing.
Defined.

Lemma get_path_well_typed_witness :
  consts_refs_files {[ gconst_hash "Foo" := 123 ]} (default ∅ (naming_file_info files_db)) /\
  exists o, get_path "Foo" foo_db = (Ok o, foo_db) /\
            (o = None <-> ({[ gconst_hash "Foo" := 123 ]} : gmap Z Z) !! gconst_hash "Foo" = None).
Proof.
  assert (Hrefs : consts_refs_files {[ gconst_hash "Foo" := 123 ]}
                    (default ∅ (naming_file_info files_db))).
  { apply map_Forall_singleton. eexists. reflexivity. }
  split; [exact Hrefs|].
  exact (get_path_well_typed "Foo" foo_db _ _ eq_refl eq_refl files_well_typed Hrefs).
Defined.

Lemma insert_keeps_refs_witness :
  consts_refs_files {[ gconst_hash "Foo" := 123 ]} (default ∅ (naming_file_info files_db)) /\
  exists t', naming_consts (snd (insert 1 ["Bar"] foo_db)) = Some t' /\
             naming_file_info (snd (insert 1 ["Bar"] foo_db)) = naming_file_info files_db /\
             consts_refs_files t' (default ∅ (naming_file_info files_db)).
Proof.
  assert (Hrefs : consts_refs_files {[ gconst_hash "Foo" := 123 ]}
                    (default ∅ (naming_file_info files_db))).
  { apply map_Forall_singleton. eexists. reflexivity. }
  split; [exact Hrefs|].
  apply (insert_keeps_refs 1 ["Bar"] foo_db _ _ (fst (insert 1 ["Bar"] foo_db)) _
           eq_refl eq_refl Hrefs); [eexists; reflexivity|apply surjective_pairing].
Defined.
