(* ===== verification/Trace.v ===== *)
(** * Traces of one connection: refinement over whole runs

    The composition of the components over whole runs.  A connection
    interleaves [create_table], [insert] runs that may hit storage faults
    ([Faults.insert_run]), [get_path] and changes of the file-location
    store.  [ustep U] is that life, with the [insert]s restricted to names
    of a set [U] whose keys are pairwise distinct.
    [reachable_refines]: every database reachable from an empty one by
    [ustep U] carries an abstract index over [U] related to its table
    ([Index.index_rel]).  Every lookup of a name of [U] returns the
    abstract index's answer.  Faults in the middle of an [insert] keep
    this, because what they leave is the [insert] of a prefix. *)

From S2P Require Import Prelude Hasher RelativePath Sqlite Consts Faults Index.

Local Open Scope Z_scope.
Local Open Scope naming_scope.

Section Trace.
Context `{NameHasher}.
Variable U : gset string.

Inductive ustep : Db -> Db -> Prop :=
| UCreate db r db' :
    create_table db = (r, db') -> ustep db db'
| UInsert db fid names r db' :
    in_i64 fid -> list_to_set names ⊆ U -> insert_run fid names db r db' -> ustep db db'
| UGetPath db name r db' :
    get_path name db = (r, db') -> ustep db db'
| UFileStore db fi :
    ustep db {| naming_consts := naming_consts db; naming_file_info := fi |}.

(** The table of [db] implements an abstract index over names of [U]. *)
Definition index_inv (db : Db) : Prop :=
  exists A, dom A ⊆ U /\ index_rel A (consts_or_empty db).
End Trace.

Section TraceProofs.
Context `{NameHasher}.
Variable U : gset string.
Hypothesis U_ok : no_collision U.

Lemma abs_insert_dom fid names A :
  dom (snd (abs_insert fid names A)) ⊆ dom A ∪ list_to_set names.
Proof.
  revert A. induction names as [|n ns IH]; intros A; simpl; [set_solver|].
  destruct (A !! n); simpl; [set_solver|].
  etransitivity; [apply IH|]. rewrite dom_insert_L. set_solver.
Qed.

Lemma list_to_set_take k (names : list string) :
  (list_to_set (take k names) : gset string) ⊆ list_to_set names.
Proof. intros x. rewrite !elem_of_list_to_set. apply subseteq_take. Qed.

(** A faulty or fault-free [insert] run of names of [U] keeps the
    invariant: it leaves the [insert] of a prefix of its names. *)
Lemma insert_run_index_inv fid names db r db' :
  list_to_set names ⊆ U -> insert_run fid names db r db' -> index_inv U db -> index_inv U db'.
Proof.
  intros HU Hrun Hinv. destruct Hrun as [db e db' Hp|db|db r db' Hp Hloop]; [| exact Hinv|].
  - pose proof (prepare_state [NAMING_CONSTS] db) as E. rewrite Hp in E. simpl in E. now subst.
  - destruct Hinv as (A & HA & Hrel).
    destruct (naming_consts db) as [t|] eqn:Hdb.
    2:{ unfold prepare in Hp. simpl in Hp. rewrite Hdb in Hp. discriminate. }
    unfold consts_or_empty in Hrel. rewrite Hdb in Hrel. simpl in Hrel.
    destruct (insert_loop_run_prefix _ _ _ _ _ Hloop) as (k & _ & <- & _).
    destruct (for_each_insert_refines fid (take k names) A t db Hrel Hdb) as (t' & -> & Hrel').
    { apply (no_collision_mono _ U); [|exact U_ok].
      pose proof (list_to_set_take k names). set_solver. }
    exists (snd (abs_insert fid (take k names) A)). split; [|exact Hrel'].
    pose proof (abs_insert_dom fid (take k names) A). pose proof (list_to_set_take k names).
    set_solver.
Qed.

Lemma ustep_index_inv db db' : ustep U db db' -> index_inv U db -> index_inv U db'.
Proof.
  destruct 1 as [db r db' Hc|db fid names r db' _ HU Hrun|db name r db' Hg|db fi]; intros Hinv.
  - rewrite create_table_eq in Hc. injection Hc as _ <-. exact Hinv.
  - exact (insert_run_index_inv fid names db r db' HU Hrun Hinv).
  - apply get_path_state_eq in Hg. now subst.
  - exact Hinv.
Qed.

Lemma rtc_ustep_index_inv db db' : rtc (ustep U) db db' -> index_inv U db -> index_inv U db'.
Proof. induction 1 as [|db db1 db' Hs _ IH]; [easy|]. intros Hinv. exact (IH (ustep_index_inv _ _ Hs Hinv)). Qed.

Lemma index_inv_open : index_inv U open_in_memory.
Proof. exists ∅. split; [set_solver|exact index_rel_empty]. Qed.

(** With the invariant's abstract index at hand, a lookup of a name of
    [U] returns that index's answer. *)
Lemma index_inv_get_path A db name t fi :
  dom A ⊆ U -> index_rel A (consts_or_empty db) -> name ∈ U ->
  naming_consts db = Some t -> naming_file_info db = Some fi ->
  get_path name db = (abs_get_path A fi name, db).
Proof.
  intros HA Hrel Hname Hc Hf. rewrite (get_path_lookup _ _ t fi Hc Hf).
  unfold consts_or_empty in Hrel. rewrite Hc in Hrel.
  rewrite (lookup_index_rel name A t fi Hrel); [reflexivity|].
  apply (no_collision_mono _ U); [set_solver|exact U_ok].
Qed.

(** C18: trace refinement.  Every database reachable from an empty one by
    any interleaving of [create_table], [insert] runs of names of a
    collision-free set [U] (with storage faults anywhere), [get_path] and
    changes of the file store implements an abstract index [A] over [U].
    Once both tables exist, every lookup of a name of [U] returns [A]'s
    answer, resolved through the current file store. *)
Theorem reachable_refines db :
  rtc (ustep U) open_in_memory db ->
  exists A, dom A ⊆ U /\ index_rel A (consts_or_empty db) /\
    forall name t fi, name ∈ U -> naming_consts db = Some t -> naming_file_info db = Some fi ->
      get_path name db = (abs_get_path A fi name, db).
Proof.
  intros Hr. destruct (rtc_ustep_index_inv _ db Hr index_inv_open) as (A & HA & Hrel).
  exists A. split; [exact HA|]. split; [exact Hrel|].
  intros name t fi Hname Hc Hf. exact (index_inv_get_path A db name t fi HA Hrel Hname Hc Hf).
Qed.

End TraceProofs.

(** ** Witnesses, hashed with [fnv_hasher], over the names [Foo] and [Bar] *)

Definition trace_db : Db := snd (insert 123 ["Foo"] table_db).

Lemma trace_db_reachable : rtc (ustep {[ "Foo"; "Bar" ]}) open_in_memory trace_db.
Proof.
  eapply rtc_l; [apply (UFileStore _ open_in_memory (naming_file_info files_db))|].
  eapply rtc_l; [apply (UCreate _ _ (Ok tt)); reflexivity|].
  eapply rtc_l; [|apply rtc_refl].
  apply (UInsert _ _ 123 ["Foo"] (Ok tt)); [unfold in_i64, i64_min, i64_max; lia|set_solver|].
  eapply IR_loop; [reflexivity|]. eapply ILR_step; [reflexivity|apply ILR_done].
Qed.

Lemma reachable_refines_witness :
  exists A, dom A ⊆ {[ "Foo"; "Bar" ]} /\ index_rel A (consts_or_empty trace_db) /\
    forall name t fi, name ∈ ({[ "Foo"; "Bar" ]} : gset string) ->
      naming_consts trace_db = Some t -> naming_file_info trace_db = Some fi ->
      get_path name trace_db = (abs_get_path A fi name, trace_db).
Proof. exact (reachable_refines _ no_collision_foo_bar trace_db trace_db_reachable). Defined.

