(* ===== verification/Interface.v ===== *)
(** * The interface a name index exposes to its callers

    Spec section 6 lists what the index offers the symbol-extraction
    pipeline and the query layer: [create_table], [insert] and [get_path],
    each returning a [Result].  [NameIndex S] is that interface over a
    state [S].  It also exposes the file-location store the index resolves
    through ([ix_files]) and the relation [ix_same_slot] between names that
    the index cannot tell apart.  [NameIndexLaws] is what callers may rely
    on, the way coqutil separates [map.map] from [map.ok]:
    - lookups never change the state, and creating the table always
      succeeds;
    - inserting a list is inserting its first name, then the rest;
    - a failed single insert changes nothing, and no insert touches the
      file store;
    - a name whose lookup finds nothing can be inserted, and afterwards it
      resolves through the file store to the inserted file;
    - inserting a name leaves the lookups of the names in other slots as
      they were, and makes every name of its slot taken.

    The client theorems of this file use the laws only, so they hold for
    every implementation.  [Instances] gives two: consts.rs over any
    [NameHasher], where a slot is a hash, and the abstract index of
    [Index], where a slot is a name. *)

From S2P Require Import Prelude Hasher RelativePath Sqlite Consts Index.

Local Open Scope Z_scope.
Local Open Scope naming_scope.

Class NameIndex (S : Type) := {
  ix_create_table : st S sql_error unit;
  ix_insert : Z -> list string -> st S sql_error unit;
  ix_get_path : string -> st S sql_error (option RelativePath);
  ix_files : S -> option (gmap Z file_info_row);
  ix_same_slot : string -> string -> Prop
}.

(** What a lookup of a name stored with file id [fid] returns. *)
Definition resolved (fi : gmap Z file_info_row) (fid : Z) : Result (option RelativePath) sql_error :=
  match resolve_file fi fid with
  | Ok p => Ok (Some p)
  | Err e => Err e
  end.

Class NameIndexLaws (S : Type) `{NameIndex S} := {
  ix_get_path_read_only n s : snd (ix_get_path n s) = s;
  ix_create_table_ok s : exists s', ix_create_table s = (Ok tt, s') /\ ix_files s' = ix_files s;
  ix_insert_cons fid n ns s : ix_insert fid (n :: ns) s = (ix_insert fid [n] ;? ix_insert fid ns) s;
  ix_insert_err fid n s e s' : ix_insert fid [n] s = (Err e, s') -> s' = s;
  ix_insert_files fid ns s r s' : ix_insert fid ns s = (r, s') -> ix_files s' = ix_files s;
  ix_insert_fresh fid n s :
    fst (ix_get_path n s) = Ok None -> exists s', ix_insert fid [n] s = (Ok tt, s');
  ix_insert_get fid n s s' fi :
    ix_insert fid [n] s = (Ok tt, s') -> ix_files s' = Some fi ->
    ix_get_path n s' = (resolved fi fid, s');
  ix_insert_frame fid n m s s' :
    ix_insert fid [n] s = (Ok tt, s') -> ~ ix_same_slot m n ->
    ix_get_path m s' = (fst (ix_get_path m s), s');
  ix_insert_taken fid fid' n m s s' :
    ix_insert fid [n] s = (Ok tt, s') -> ix_same_slot m n ->
    ix_insert fid' [m] s' = (Err (PrimaryKeyConstraint NAMING_CONSTS), s')
}.

(** The names of a list lie in pairwise different slots. *)
Fixpoint slots_apart {S : Type} `{NameIndex S} (names : list string) : Prop :=
  match names with
  | [] => True
  | n :: ns => Forall (fun m => ~ ix_same_slot m n /\ ~ ix_same_slot n m) ns /\ slots_apart ns
  end.

Section Client.
Context {S : Type} `{NameIndexLaws S}.

Lemma ix_insert_single fid n s fi :
  ix_files s = Some fi -> fst (ix_get_path n s) = Ok None ->
  exists s', ix_insert fid [n] s = (Ok tt, s') /\ ix_files s' = Some fi /\
    ix_get_path n s' = (resolved fi fid, s') /\
    forall m, ~ ix_same_slot m n -> ix_get_path m s' = (fst (ix_get_path m s), s').
Proof.
  intros Hf Hn. destruct (ix_insert_fresh fid n s Hn) as [s' Hins].
  assert (Hf' : ix_files s' = Some fi) by (rewrite (ix_insert_files _ _ _ _ _ Hins); exact Hf).
  exists s'. split; [exact Hins|]. split; [exact Hf'|]. split.
  - exact (ix_insert_get _ _ _ _ _ Hins Hf').
  - intros m Hm. exact (ix_insert_frame _ _ _ _ _ Hins Hm).
Qed.

(** Inserting names that are unknown and in pairwise different slots
    succeeds.  Each of them then resolves to the file, and every name in
    another slot keeps its lookup. *)
Lemma ix_insert_all fid names s fi :
  names <> [] -> ix_files s = Some fi -> slots_apart names ->
  Forall (fun n => fst (ix_get_path n s) = Ok None) names ->
  exists s', ix_insert fid names s = (Ok tt, s') /\ ix_files s' = Some fi /\
    Forall (fun n => ix_get_path n s' = (resolved fi fid, s')) names /\
    forall m, Forall (fun n => ~ ix_same_slot m n) names ->
      ix_get_path m s' = (fst (ix_get_path m s), s').
Proof.
  revert s. induction names as [|n ns IH]; intros s Hne Hf Hap Hfresh; [congruence|].
  simpl in Hap. destruct Hap as [Hn_apart Hapart].
  apply Forall_cons in Hfresh as [Hn Hns].
  destruct (ix_insert_single fid n s fi Hf Hn) as (s1 & Hins1 & Hf1 & Hget1 & Hframe1).
  destruct ns as [|n' ns'].
  - exists s1. split; [exact Hins1|]. split; [exact Hf1|]. split; [now constructor|].
    intros m Hm. apply Forall_cons in Hm as [Hm _]. exact (Hframe1 m Hm).
  - destruct (IH s1 ltac:(discriminate) Hf1 Hapart) as (s' & Hins & Hf' & Hget & Hframe).
    { apply Forall_forall. intros x Hx. rewrite Forall_forall in Hn_apart, Hns.
      rewrite (Hframe1 x (proj1 (Hn_apart x Hx))). exact (Hns x Hx). }
    exists s'. split; [rewrite ix_insert_cons; unfold st_bind; now rewrite Hins1|].
    split; [exact Hf'|]. split.
    + constructor; [|exact Hget]. rewrite (Hframe n); [now rewrite Hget1|].
      apply Forall_forall. intros x Hx. rewrite Forall_forall in Hn_apart. exact (proj2 (Hn_apart x Hx)).
    + intros m Hm. apply Forall_cons in Hm as [Hmn Hms].
      rewrite (Hframe m Hms), (Hframe1 m Hmn). reflexivity.
Qed.

(** The spec's second scenario, for every implementation: names [a] and
    [b] of file 1 and [c] of file 2, in pairwise different slots and
    unknown before, resolve to their files afterwards. *)
Lemma ix_scenario_two_files s fi a b c :
  ix_files s = Some fi -> slots_apart [a; b; c] ->
  Forall (fun n => fst (ix_get_path n s) = Ok None) [a; b; c] ->
  exists s', (ix_insert 1 [a; b] ;? ix_insert 2 [c]) s = (Ok tt, s') /\
    ix_get_path a s' = (resolved fi 1, s') /\ ix_get_path b s' = (resolved fi 1, s') /\
    ix_get_path c s' = (resolved fi 2, s').
Proof.
  intros Hf (Ha & Hb & _) Hfresh. inversion Hfresh as [|? ? Hfa Hfresh']; subst.
  inversion Hfresh' as [|? ? Hfb Hfresh'']; subst. inversion Hfresh'' as [|? ? Hfc _]; subst.
  destruct (ix_insert_all 1 [a; b] s fi ltac:(discriminate) Hf) as (s1 & Hins1 & Hf1 & Hget1 & Hframe1).
  { split; [|split; [constructor|exact I]].
    inversion Ha; subst. now constructor. }
  { repeat constructor; assumption. }
  assert (Hc1 : fst (ix_get_path c s1) = Ok None).
  { rewrite (Hframe1 c). exact Hfc.
    inversion Ha as [|? ? Hac Ha']; subst. inversion Ha' as [|? ? Hac' _]; subst.
    inversion Hb as [|? ? Hbc _]; subst.
    constructor; [exact (proj1 Hac')|constructor; [exact (proj1 Hbc)|constructor]]. }
  destruct (ix_insert_single 2 c s1 fi Hf1 Hc1) as (s2 & Hins2 & _ & Hget2 & Hframe2).
  inversion Hget1 as [|? ? Hga Hget1']; subst. inversion Hget1' as [|? ? Hgb _]; subst.
  inversion Ha as [|? ? Hab Ha']; subst. inversion Ha' as [|? ? Hac _]; subst.
  inversion Hb as [|? ? Hbc _]; subst.
  exists s2. split; [unfold st_bind; now rewrite Hins1|].
  split; [|split; [|exact Hget2]].
  - rewrite (Hframe2 a (proj2 Hac)). now rewrite Hga.
  - rewrite (Hframe2 b (proj2 Hbc)). now rewrite Hgb.
Qed.
End Client.
