(* ===== verification/Instances.v ===== *)
(** * Two implementations of the name-index interface

    - [consts_index]: consts.rs itself, over the database [Db] and any
      [NameHasher].  Two names share a slot when they share a key
      [gconst_hash].  [consts_laws] discharges [NameIndexLaws] from the
      theorems of [Consts], [Faults] and [Laws].
    - [abs_index]: the abstract index of [Index], a map from names to file
      ids, beside the same file store.  Here a slot is a name, so no two
      names collide.  [abs_laws] discharges the same laws.

    Every client theorem of [Interface] thus holds of both.  The claim
    here instantiates the spec's second scenario at consts.rs, for every
    hasher, under the hypothesis that the three names have distinct
    keys. *)

From S2P Require Import Prelude Hasher RelativePath Sqlite Consts Faults Index Laws Interface.

Local Open Scope Z_scope.
Local Open Scope naming_scope.

(** ** consts.rs *)

#[export] Instance consts_index `{NameHasher} : NameIndex Db := {|
  ix_create_table := create_table;
  ix_insert := insert;
  ix_get_path := get_path;
  ix_files := naming_file_info;
  ix_same_slot n m := gconst_hash n = gconst_hash m
|}.

(** ** The abstract index *)

Record AbsDb : Type := mk_absdb {
  abs_names : option (gmap string Z);
  abs_files : option (gmap Z file_info_row)
}.

Definition abs_create_table : st AbsDb sql_error unit := fun s =>
  (Ok tt, mk_absdb (Some (default ∅ (abs_names s))) (abs_files s)).

Definition abs_insert_op (fid : Z) (names : list string) : st AbsDb sql_error unit := fun s =>
  match abs_names s with
  | None => (Err (NoSuchTable NAMING_CONSTS), s)
  | Some A => (fst (abs_insert fid names A), mk_absdb (Some (snd (abs_insert fid names A))) (abs_files s))
  end.

Definition abs_get_path_op (name : string) : st AbsDb sql_error (option RelativePath) := fun s =>
  match abs_names s, abs_files s with
  | None, _ => (Err (NoSuchTable NAMING_CONSTS), s)
  | _, None => (Err (NoSuchTable NAMING_FILE_INFO), s)
  | Some A, Some fi => (abs_get_path A fi name, s)
  end.

#[export] Instance abs_index : NameIndex AbsDb := {|
  ix_create_table := abs_create_table;
  ix_insert := abs_insert_op;
  ix_get_path := abs_get_path_op;
  ix_files := abs_files;
  ix_same_slot n m := n = m
|}.

(** ** consts.rs satisfies the laws *)

Section ConstsLaws.
Context `{NameHasher}.

Lemma insert_name_ok_inv fid n db db' :
  insert_name fid n db = (Ok tt, db') ->
  exists t, naming_consts db = Some t /\ t !! gconst_hash n = None /\
            db' = set_naming_consts (<[gconst_hash n := fid]> t) db.
Proof.
  unfold insert_name, exec_insert_naming_consts. cbv zeta.
  destruct (naming_consts db) as [t|]; [destruct (t !! gconst_hash n) eqn:Hk|];
    intros; simplify_eq; eauto.
Qed.

(** A lookup succeeds with [None] only on an existing table without the
    name's key. *)
Lemma get_path_ok_none name db :
  fst (get_path name db) = Ok None ->
  exists t, naming_consts db = Some t /\ t !! gconst_hash name = None.
Proof.
  intros Hn. destruct (naming_consts db) as [t|] eqn:Hc.
  2:{ now rewrite (get_path_no_consts _ _ Hc) in Hn. }
  destruct (naming_file_info db) as [fi|] eqn:Hf.
  2:{ revert Hn. unfold get_path, st_bind, prepare. cbn [find table_exists]. now rewrite Hc, Hf. }
  rewrite (get_path_lookup _ _ t fi Hc Hf) in Hn. exists t. split; [reflexivity|].
  destruct (t !! gconst_hash name); [|reflexivity].
  rewrite optional_get_path_row in Hn. simpl in Hn. now destruct (get_path_row _).
Qed.

(** Changing the table elsewhere than at a name's key leaves its lookup
    as it was. *)
Lemma get_path_set_frame m t t' db :
  naming_consts db = Some t -> t' !! gconst_hash m = t !! gconst_hash m ->
  get_path m (set_naming_consts t' db) = (fst (get_path m db), set_naming_consts t' db).
Proof.
  intros Hc Heq. destruct (naming_file_info db) as [fi|] eqn:Hf.
  - rewrite (get_path_lookup _ _ t' fi (naming_consts_set _ _) (eq_trans (naming_file_info_set _ _) Hf)).
    rewrite (get_path_lookup _ _ t fi Hc Hf), Heq. reflexivity.
  - unfold get_path, st_bind, prepare. cbn [find table_exists].
    rewrite naming_consts_set, naming_file_info_set, Hc, Hf. reflexivity.
Qed.

Lemma resolved_join fi fid : optional (get_path_row (join_file_info fi fid)) = resolved fi fid.
Proof. unfold resolved, resolve_file. apply optional_get_path_row. Qed.

#[export] Instance consts_laws : NameIndexLaws Db.
Proof.
  split; cbn [ix_create_table ix_insert ix_get_path ix_files ix_same_slot consts_index].
  - intros n s. destruct (get_path n s) as [r s'] eqn:E. apply get_path_state_eq in E. now subst.
  - intros s. eexists. split; [apply create_table_eq|apply naming_file_info_set].
  - intros fid n ns s. rewrite insert_cons. apply st_bind_ext_l. intros s'. symmetry. apply insert_singleton.
  - intros fid n s e s'. rewrite insert_singleton. apply insert_name_err_state.
  - intros fid ns s r s' Hins. eapply consts_only_file_info, insert_consts_only, Hins.
  - intros fid n s Hn. destruct (get_path_ok_none _ _ Hn) as (t & Hc & Hk).
    eexists. rewrite insert_singleton. exact (exec_insert_fresh t s _ fid Hc Hk).
  - intros fid n s s' fi Hins Hf. rewrite insert_singleton in Hins.
    destruct (insert_name_ok_inv _ _ _ _ Hins) as (t & Hc & Hk & ->).
    rewrite (get_path_lookup _ _ _ fi (naming_consts_set _ _) Hf), lookup_insert_eq.
    now rewrite resolved_join.
  - intros fid n m s s' Hins Hm. rewrite insert_singleton in Hins.
    destruct (insert_name_ok_inv _ _ _ _ Hins) as (t & Hc & Hk & ->).
    apply (get_path_set_frame m t _ _ Hc). rewrite lookup_insert_ne; [reflexivity|congruence].
  - intros fid fid' n m s s' Hins Hm. rewrite insert_singleton in Hins |- *.
    destruct (insert_name_ok_inv _ _ _ _ Hins) as (t & Hc & Hk & ->).
    apply (exec_insert_present _ _ _ fid' fid (naming_consts_set _ _)).
    rewrite Hm. apply lookup_insert_eq.
Qed.
End ConstsLaws.

(** ** The abstract index satisfies the laws *)

#[export] Instance abs_laws : NameIndexLaws AbsDb.
Proof.
  split; cbn [ix_create_table ix_insert ix_get_path ix_files ix_same_slot abs_index].
  - intros n [[A|] [fi|]]; reflexivity.
  - intros s. eexists. split; reflexivity.
  - intros fid n ns [[A|] fi]; [|reflexivity].
    unfold st_bind, abs_insert_op. cbn. destruct (A !! n); reflexivity.
  - intros fid n [[A|] fi] e s'; unfold abs_insert_op; cbn; [destruct (A !! n)|]; cbn; congruence.
  - intros fid ns [[A|] fi] r s'; unfold abs_insert_op; cbn; intros [= _ <-]; reflexivity.
  - intros fid n [[A|] [fi|]] Hn; cbn in Hn; try discriminate.
    unfold abs_get_path in Hn. unfold abs_insert_op. cbn.
    destruct (A !! n); [destruct (resolve_file _ _); discriminate|]. eexists. reflexivity.
  - intros fid n [[A|] fi0] s' fi Hins Hf; unfold abs_insert_op in Hins; cbn in Hins; [|discriminate].
    destruct (A !! n); cbn in Hins; [discriminate|]. injection Hins as <-. cbn in Hf. subst fi0.
    unfold abs_get_path_op, abs_get_path. cbn. rewrite lookup_insert_eq. reflexivity.
  - intros fid n m [[A|] fi] s' Hins Hm; unfold abs_insert_op in Hins; cbn in Hins; [|discriminate].
    destruct (A !! n); cbn in Hins; [discriminate|]. injection Hins as <-.
    unfold abs_get_path_op, abs_get_path. cbn. destruct fi; [|reflexivity].
    rewrite lookup_insert_ne by congruence. reflexivity.
  - intros fid fid' n m [[A|] fi] s' Hins ->; unfold abs_insert_op in Hins |- *; cbn in Hins; [|discriminate].
    destruct (A !! n); cbn in Hins; [discriminate|]. injection Hins as <-. cbn.
    rewrite lookup_insert_eq. reflexivity.
Qed.

(** ** The spec's second scenario at consts.rs, for every hasher *)

Section Scenario.
Context `{NameHasher}.

(** C20: for any [NameHasher], on a database whose three names [a], [b]
    and [c] are unknown and have pairwise distinct keys, inserting [a] and
    [b] for file 1 and then [c] for file 2 succeeds.  Afterwards [a] and
    [b] resolve to file 1 through the file store and [c] to file 2.  It
    is the client theorem [ix_scenario_two_files] of the interface, at the
    instance [consts_laws]. *)
Theorem consts_scenario_two_files db fi a b c :
  naming_file_info db = Some fi ->
  gconst_hash a <> gconst_hash b -> gconst_hash a <> gconst_hash c -> gconst_hash b <> gconst_hash c ->
  Forall (fun n => fst (get_path n db) = Ok None) [a; b; c] ->
  exists db', (insert 1 [a; b] ;? insert 2 [c]) db = (Ok tt, db') /\
    get_path a db' = (resolved fi 1, db') /\ get_path b db' = (resolved fi 1, db') /\
    get_path c db' = (resolved fi 2, db').
Proof.
  intros Hf Hab Hac Hbc Hfresh.
  apply (@ix_scenario_two_files Db consts_index consts_laws db fi a b c Hf); [|exact Hfresh].
  cbn. split; [|split; [|split; [constructor|exact I]]];
    repeat constructor; intros Heq; apply Hab || apply Hac || apply Hbc; congruence.
Qed.
End Scenario.

Lemma consts_scenario_two_files_witness :
  gconst_hash "A" <> gconst_hash "B" /\ gconst_hash "A" <> gconst_hash "C" /\
  gconst_hash "B" <> gconst_hash "C" /\
  exists db', (insert 1 ["A"; "B"] ;? insert 2 ["C"]) table_db = (Ok tt, db') /\
    get_path "A" db' = (resolved (default ∅ (naming_file_info files_db)) 1, db') /\
    get_path "B" db' = (resolved (default ∅ (naming_file_info files_db)) 1, db') /\
    get_path "C" db' = (resolved (default ∅ (naming_file_info files_db)) 2, db').
Proof.
  assert (Hab : gconst_hash "A" <> gconst_hash "B") by (vm_compute; discriminate).
  assert (Hac : gconst_hash "A" <> gconst_hash "C") by (vm_compute; discriminate).
  assert (Hbc : gconst_hash "B" <> gconst_hash "C") by (vm_compute; discriminate).
  split; [exact Hab|]. split; [exact Hac|]. split; [exact Hbc|].
  apply (consts_scenario_two_files table_db _ "A" "B" "C" eq_refl Hab Hac Hbc).
  repeat constructor; vm_compute; reflexivity.
Defined.
